(** * glitch-text: a shallow embedding of [src/glitch-text.js]

    The custom element <glitch-text> resolves a display text, assigns itself
    an identifier, builds a stylesheet with two randomised [@keyframes]
    animations and adopts it into the document.

    Modelling decisions, in the order of the file:

    - JavaScript numbers are IEEE-754 binary64 values: Rocq's primitive
      [float].  [Math.floor] and [Number::toString] (the text a template
      literal substitutes for a number) are written out over [Prim2SF].
    - JavaScript strings are [string]; one [ascii] is one code unit below 256.
    - [Math.random] and [crypto.randomUUID] are the platform's: the [k]-th
      value each returns is read from a stream, and the number of values
      consumed so far is part of the state.
    - The element's attributes ([setAttribute], [dataset]) are a finite map
      from attribute names to values.
    - The text the component generates is read by its brace structure
      ([CSS.css_rules]), selector lists and declarations.  The reader knows no
      CSS strings, comments or escapes: it reads what a style engine reads
      where none of them holds a brace, as in the generated keyframes and in
      a stylesheet written for an identifier of UUID characters, and the
      theorems about stylesheets take such identifiers.
    - The [animation] shorthand is read as CSS Animations has it: the first
      time is the duration, the second the delay. *)

From Stdlib Require Import ZArith Floats Strings.String Strings.Ascii.
From Stdlib Require Import DecimalString List Lia Bool.
From stdpp Require Import base option gmap strings.
From Equations Require Import Equations.
Import ListNotations.

Open Scope string_scope.
Open Scope bool_scope.
Open Scope Z_scope.

(** ** Strings *)

Module Str.

(** The double quote character, code unit 34. *)
Definition dq : string := String "034"%char EmptyString.

Fixpoint forall_chars (p : ascii -> bool) (s : string) : bool :=
  match s with
  | EmptyString => true
  | String c r => p c && forall_chars p r
  end.

Definition char_in (l : list ascii) (c : ascii) : bool :=
  existsb (Ascii.eqb c) l.

(** No character of [s] is one of [l]. *)
Definition free_of (l : list ascii) (s : string) : bool :=
  forall_chars (fun c => negb (char_in l c)) s.

(** A text without the characters by which the reader of this development
    takes a stylesheet apart: no brace, comma, semicolon or CSS white space.
    This says nothing about quotes, backslashes, comment marks or brackets,
    which CSS gives a meaning too: [plain] serves the lemmas about the
    reader, and the theorems about stylesheets take identifiers made of
    [uuid_char]. *)
Definition plain (s : string) : bool :=
  free_of ["{"; "}"; ","; ";"; "009"; "010"; "012"; "013"; " "]%char s.

(** The characters of a UUID as [crypto.randomUUID] prints it: lower-case
    hexadecimal digits and hyphens. *)
Definition uuid_char (c : ascii) : bool :=
  char_in ["0"; "1"; "2"; "3"; "4"; "5"; "6"; "7"; "8"; "9";
           "a"; "b"; "c"; "d"; "e"; "f"; "-"]%char c.

(** [String.prototype.trim] strips WhiteSpace and LineTerminator code units;
    below 256 these are TAB, LF, VT, FF, CR, SPACE and NBSP. *)
Definition js_space (c : ascii) : bool :=
  let n := nat_of_ascii c in
  ((9 <=? n) && (n <=? 13) || (n =? 32) || (n =? 160))%nat.

(** CSS whitespace: TAB, LF, FF, CR and SPACE. *)
Definition css_space (c : ascii) : bool :=
  let n := nat_of_ascii c in
  ((n =? 9) || (n =? 10) || (n =? 12) || (n =? 13) || (n =? 32))%nat.

Fixpoint ltrim_by (p : ascii -> bool) (s : string) : string :=
  match s with
  | EmptyString => EmptyString
  | String c r => if p c then ltrim_by p r else s
  end.

Fixpoint rtrim_by (p : ascii -> bool) (s : string) : string :=
  match s with
  | EmptyString => EmptyString
  | String c r =>
      match rtrim_by p r with
      | EmptyString => if p c then EmptyString else String c EmptyString
      | r' => String c r'
      end
  end.

Definition trim_by (p : ascii -> bool) (s : string) : string :=
  rtrim_by p (ltrim_by p s).

(** [s.trim()] *)
Definition trim (s : string) : string := trim_by js_space s.

(** The first, the last character of [s] satisfies [p]. *)
Definition starts_with (p : ascii -> bool) (s : string) : bool :=
  match s with
  | EmptyString => false
  | String c _ => p c
  end.

Fixpoint ends_with (p : ascii -> bool) (s : string) : bool :=
  match s with
  | EmptyString => false
  | String c EmptyString => p c
  | String _ r => ends_with p r
  end.

(** The texts of [l] one after the other. *)
Definition join (l : list string) : string := fold_right append EmptyString l.

(** The pieces of [s] between the occurrences of [c] (always at least one). *)
Fixpoint split_on (c : ascii) (s : string) : list string :=
  match s with
  | EmptyString => [EmptyString]
  | String a r =>
      if Ascii.eqb a c then EmptyString :: split_on c r
      else
        match split_on c r with
        | [] => [String a EmptyString]
        | h :: t => String a h :: t
        end
  end.

(** The pieces of [a ++ b] from the pieces of [a] and of [b]: the last piece
    of [a] runs on into the first piece of [b]. *)
Definition glue (l1 l2 : list string) : list string :=
  List.app (List.removelast l1)
    (String.append (List.last l1 EmptyString) (List.hd EmptyString l2) :: List.tl l2).

(** The text before and after the first occurrence of [c]. *)
Fixpoint break_at (c : ascii) (s : string) : option (string * string) :=
  match s with
  | EmptyString => None
  | String a r =>
      if Ascii.eqb a c then Some (EmptyString, r)
      else
        match break_at c r with
        | Some (h, t) => Some (String a h, t)
        | None => None
        end
  end.

(** [strip_prefix p s] is the rest of [s] after its prefix [p]. *)
Fixpoint strip_prefix (p s : string) : option string :=
  match p, s with
  | EmptyString, _ => Some s
  | String a p', String b s' => if Ascii.eqb a b then strip_prefix p' s' else None
  | String _ _, EmptyString => None
  end.

(** [strip_suffix p s] is [s] without its final [p]. *)
Fixpoint strip_suffix (p s : string) : option string :=
  match s with
  | EmptyString => if String.eqb p EmptyString then Some EmptyString else None
  | String a r =>
      if String.eqb p s then Some EmptyString
      else
        match strip_suffix p r with
        | Some h => Some (String a h)
        | None => None
        end
  end.

End Str.

(** ** JavaScript numbers *)

Module Number.

Definition of_Z (z : Z) : float :=
  match z with
  | Z0 => PrimFloat.zero
  | Zpos _ => PrimFloat.of_uint63 (Uint63.of_Z z)
  | Zneg p => PrimFloat.opp (PrimFloat.of_uint63 (Uint63.of_Z (Zpos p)))
  end.

(** A loop counter as a Number (exact below 2^53). *)
Definition of_nat (n : nat) : float := of_Z (Z.of_nat n).

(** [Math.floor]: the largest integral Number not above [f]; NaN, the
    infinities and the zeros are returned unchanged.  A finite [f] is
    [m * 2^e]; with [e < 0] its integral part is below 2^53, so [of_Z] is
    exact. *)
Definition floor (f : float) : float :=
  match Prim2SF f with
  | S754_finite s m e =>
      if 0 <=? e then f
      else
        let d := 2 ^ (- e) in
        let q := Zpos m / d in
        if s then PrimFloat.opp (of_Z (if Zpos m mod d =? 0 then q else q + 1))
        else of_Z q
  | _ => f
  end.

(** Decimal digits of a non-negative integer. *)
Definition digits (n : Z) : string :=
  NilZero.string_of_uint (N.to_uint (Z.to_N n)).

(** Compare [num / den] with [s * 10^t]. *)
Definition cmp_dec (num den s t : Z) : comparison :=
  if 0 <=? t then (num ?= s * 10 ^ t * den) else (num * 10 ^ (- t) ?= s * den).

(** The least [n' >= n] (within the fuel) with [num / den < 10^n']. *)
Fixpoint find_n (fuel : nat) (num den n : Z) : Z :=
  match fuel with
  | O => n
  | S fuel' =>
      match cmp_dec num den 1 n with
      | Lt => n
      | _ => find_n fuel' num den (n + 1)
      end
  end.

(** The [n], [k] and [s] of Number::toString: [k] is the least number of
    digits such that [s * 10^(n-k)], with [10^(k-1) <= s < 10^k], reads back
    as the same Number. *)
Record shortest := { sh_n : Z; sh_k : Z; sh_s : Z }.

Section Shortest.

(** The positive finite Number [m * 2^e], and the interval of reals that round
    to it, both over the denominator [den] (the interval is closed when [m] is
    even: ties go to the even mantissa). *)
Variables (m : positive) (e : Z).

Let num := if 0 <=? e then 4 * Zpos m * 2 ^ e else 4 * Zpos m.
Let den := if 0 <=? e then 4 else 4 * 2 ^ (- e).
Let ulp := if 0 <=? e then 4 * 2 ^ e else 4.
Let hi := num + ulp / 2.
Let lo := num - (if (Zpos m =? 2 ^ 52) && (-1074 <? e) then ulp / 4 else ulp / 2).
Let closed := Z.even (Zpos m).

Definition rounds_back (s t : Z) : bool :=
  match cmp_dec lo den s t, cmp_dec hi den s t with
  | Lt, Gt => true
  | Eq, _ => closed
  | _, Eq => closed
  | _, _ => false
  end.

Definition floor_dec (t : Z) : Z :=
  if 0 <=? t then num / (10 ^ t * den) else (num * 10 ^ (- t)) / den.

(** [10^(n0-1) <= m * 2^e < 10^n0], found from an estimate by the bit length. *)
Definition n0 : Z :=
  find_n 8 num den ((Z.log2 (Zpos m) + e) * 30103 / 100000 - 1).

(** The [k]-digit decimal nearest to the Number among those that read back
    as it, if there is one. *)
Definition candidate (n k : Z) : option Z :=
  let t := n - k in
  let s := floor_dec t in
  match rounds_back s t, rounds_back (s + 1) t with
  | true, true =>
      match cmp_dec (2 * num) den (2 * s + 1) t with
      | Lt => Some s
      | Gt => Some (s + 1)
      | Eq => Some (if Z.even s then s else s + 1)
      end
  | true, false => Some s
  | false, true => Some (s + 1)
  | false, false => None
  end.

Fixpoint search (fuel : nat) (n k : Z) : shortest :=
  match fuel with
  | O => {| sh_n := n; sh_k := k; sh_s := floor_dec (n - k) |}
  | S fuel' =>
      match candidate n k with
      | Some s =>
          if s =? 10 ^ k then {| sh_n := n + 1; sh_k := 1; sh_s := 1 |}
          else {| sh_n := n; sh_k := k; sh_s := s |}
      | None => search fuel' n (k + 1)
      end
  end.

Definition shortest_digits : shortest := search 17 n0 1.

End Shortest.

Definition zeros (n : Z) : string :=
  string_of_list_ascii (repeat "0"%char (Z.to_nat n)).

Definition exponent (x : Z) : string :=
  (if 0 <=? x then "+" else "-") ++ digits (Z.abs x).

(** Number::toString for a positive finite Number, by the five layouts of
    ECMA-262. *)
Definition finite_toString (m : positive) (e : Z) : string :=
  let r := shortest_digits m e in
  let n := sh_n r in
  let k := sh_k r in
  let ds := digits (sh_s r) in
  if (k <=? n) && (n <=? 21) then ds ++ zeros (n - k)
  else if (0 <? n) && (n <=? 21) then
    substring 0 (Z.to_nat n) ds ++ "." ++ substring (Z.to_nat n) (Z.to_nat (k - n)) ds
  else if (-6 <? n) && (n <=? 0) then "0." ++ zeros (- n) ++ ds
  else if k =? 1 then ds ++ "e" ++ exponent (n - 1)
  else
    substring 0 1 ds ++ "." ++ substring 1 (Z.to_nat (k - 1)) ds
      ++ "e" ++ exponent (n - 1).

(** The text of a Number inside a template literal. *)
Definition toString (f : float) : string :=
  match Prim2SF f with
  | S754_nan => "NaN"
  | S754_zero _ => "0"
  | S754_infinity s => if s then "-Infinity" else "Infinity"
  | S754_finite s m e => (if s then "-" else EmptyString) ++ finite_toString m e
  end.

(** The characters a Number's text can contain. *)
Definition num_char (c : ascii) : bool :=
  Str.char_in
    ["0"; "1"; "2"; "3"; "4"; "5"; "6"; "7"; "8"; "9"; "."; "e"; "+"; "-";
     "N"; "a"; "I"; "n"; "f"; "i"; "t"; "y"]%char c.

End Number.

(** ** Reading generated CSS *)

Module CSS.

(** A rule is the text before its opening brace (the prelude: a selector
    list, [@media ...] or [@keyframes ...]) and the raw text between its
    braces. *)
Definition rule : Type := string * string.

(** The scanner reads one block level: [depth] counts the open braces,
    [prelude] and [body] collect the text of the rule being read, [rules]
    holds the rules already closed.  Every brace counts: a brace inside a
    CSS string, a comment or an escape is read as structure too, so the
    scanner agrees with a style engine on texts where these hold no brace. *)
Record scanner := {
  depth : nat;
  prelude : string;
  body : string;
  rules : list rule
}.

Definition start : scanner :=
  {| depth := 0; prelude := EmptyString; body := EmptyString; rules := [] |}.

Definition push (s : string) (c : ascii) : string := s ++ String c EmptyString.

Definition scan_char (st : scanner) (c : ascii) : option scanner :=
  match depth st with
  | O =>
      if Ascii.eqb c "{" then
        Some {| depth := 1; prelude := prelude st; body := EmptyString; rules := rules st |}
      else if Ascii.eqb c "}" then None
      else
        Some {| depth := 0; prelude := push (prelude st) c; body := EmptyString;
                rules := rules st |}
  | S O =>
      if Ascii.eqb c "}" then
        Some {| depth := 0; prelude := EmptyString; body := EmptyString;
                rules := rules st ++ [(Str.trim_by Str.css_space (prelude st), body st)] |}
      else
        Some {| depth := if Ascii.eqb c "{" then 2 else 1; prelude := prelude st;
                body := push (body st) c; rules := rules st |}
  | S (S d) =>
      Some {| depth := if Ascii.eqb c "{" then S (S (S d))
                       else if Ascii.eqb c "}" then S d else S (S d);
              prelude := prelude st; body := push (body st) c; rules := rules st |}
  end.

Fixpoint scan (st : scanner) (s : string) : option scanner :=
  match s with
  | EmptyString => Some st
  | String c r =>
      match scan_char st c with
      | Some st' => scan st' r
      | None => None
      end
  end.

(** The rules of a stylesheet text, or of the content of a block; [None] when
    the braces do not match or text is left over after the last rule. *)
Definition css_rules (css : string) : option (list rule) :=
  match scan start css with
  | Some st =>
      if (depth st =? 0)%nat && Str.forall_chars Str.css_space (prelude st)
      then Some (rules st) else None
  | None => None
  end.

(** The depth after [t], read inside a block at depth [d]; [None] when the
    block closes within [t]. *)
Fixpoint nesting (d : nat) (t : string) : option nat :=
  match t with
  | EmptyString => Some d
  | String c r =>
      if Ascii.eqb c "{" then nesting (S d) r
      else if Ascii.eqb c "}" then
        match d with
        | S (S d') => nesting (S d') r
        | _ => None
        end
      else nesting d r
  end.

(** A rule as it is written: the text before the opening brace, the text
    between the braces, and the space after the closing brace. *)
Record written := { w_prelude : string; w_body : string; w_space : string }.

Definition write (b : written) : string :=
  w_prelude b ++ "{" ++ w_body b ++ "}" ++ w_space b.

Definition write_all (l : list written) : string :=
  fold_right (fun b s => write b ++ s) EmptyString l.

(** What reading a written rule gives. *)
Definition read_back (b : written) : rule :=
  (Str.trim_by Str.css_space (w_prelude b), w_body b).

(** A written rule reads back when its prelude holds no brace, its body's
    braces match and only space follows it. *)
Definition well_written (b : written) : bool :=
  Str.free_of ["{"; "}"]%char (w_prelude b)
  && match nesting 1 (w_body b) with Some 1%nat => true | _ => false end
  && Str.forall_chars Str.css_space (w_space b).

(** The selectors of a selector list. *)
Definition selectors (prelude : string) : list string :=
  map (Str.trim_by Str.css_space) (Str.split_on "," prelude).

(** The declarations [name: value;] of a rule body that holds no nested
    block. *)
Definition declarations (body : string) : list (string * string) :=
  omap
    (fun d =>
       match Str.break_at ":" d with
       | Some (n, v) => Some (Str.trim_by Str.css_space n, Str.trim_by Str.css_space v)
       | None => None
       end)
    (Str.split_on ";" body).

(** The value a rule body declares for [property] (the last one wins). *)
Definition declared_in (body property : string) : option string :=
  fold_left
    (fun acc d => if String.eqb (fst d) property then Some (snd d) else acc)
    (declarations body) None.

(** The value the rules declare for [property] on the elements [selector]
    names: the last declaration among the rules that list the selector. *)
Definition declared_value (rs : list rule) (selector property : string) : option string :=
  fold_left
    (fun acc r =>
       if existsb (String.eqb selector) (selectors (fst r)) then
         match declared_in (snd r) property with
         | Some v => Some v
         | None => acc
         end
       else acc)
    rs None.

(** The arguments of a functional value [name(a, b, ...)]. *)
Definition function_args (name value : string) : option (list string) :=
  match Str.strip_prefix (name ++ "(") value with
  | Some r =>
      match Str.strip_suffix ")" r with
      | Some inner => Some (map (Str.trim_by Str.css_space) (Str.split_on "," inner))
      | None => None
      end
  | None => None
  end.

(** The four offsets of [rect(top, right, bottom, left)], in CSS's order. *)
Record rect := { top : string; right : string; bottom : string; left : string }.

Definition rect_offsets (value : string) : option rect :=
  match function_args "rect" value with
  | Some [t; r; b; l] => Some {| top := t; right := r; bottom := b; left := l |}
  | _ => None
  end.

(** The clip rectangle a keyframe body declares. *)
Definition clip_rect (body : string) : option rect :=
  match declared_in body "clip" with
  | Some v => rect_offsets v
  | None => None
  end.

(** The media condition under which motion is welcome. *)
Definition no_preference : string := "@media (prefers-reduced-motion: no-preference)".

(** The whole text is one block, and that block is the media condition. *)
Definition guarded_by_media (css : string) : bool :=
  match css_rules css with
  | Some [r] => String.eqb (fst r) no_preference
  | _ => false
  end.

(** The rules inside the media block of such a text. *)
Definition guarded_rules (css : string) : option (list rule) :=
  match css_rules css with
  | Some [r] => if String.eqb (fst r) no_preference then css_rules (snd r) else None
  | _ => None
  end.

(** *** Values and the [animation] shorthand *)

(** The component values of a declaration value: the pieces that white space
    outside parentheses separates. *)
Fixpoint components_from (depth : nat) (current value : string) : list string :=
  match value with
  | EmptyString =>
      match current with
      | EmptyString => []
      | _ => [current]
      end
  | String c r =>
      if Str.css_space c && (depth =? 0)%nat then
        match current with
        | EmptyString => components_from 0 EmptyString r
        | _ => current :: components_from 0 EmptyString r
        end
      else
        components_from
          (if Ascii.eqb c "(" then S depth
           else if Ascii.eqb c ")" then Nat.pred depth else depth)
          (push current c) r
  end.

Definition components (value : string) : list string :=
  components_from 0 EmptyString value.

(** [var(--name)] and [var(--name, fallback)]: the custom property a
    component value refers to, and the fallback. *)
Definition var_reference (c : string) : option (string * option string) :=
  match Str.strip_prefix "var(" c with
  | Some r =>
      match Str.strip_suffix ")" r with
      | Some inner =>
          match Str.break_at "," inner with
          | Some (n, f) =>
              Some (Str.trim_by Str.css_space n, Some (Str.trim_by Str.css_space f))
          | None => Some (Str.trim_by Str.css_space inner, None)
          end
      | None => None
      end
  | None => None
  end.

(** The component values after substitution: a reference is replaced by the
    value of the custom property where [custom] has one, by its fallback
    otherwise; with neither the declaration is invalid ([None]).  Only
    references that stand as whole component values are followed, and a
    reference inside the value of a custom property is not: the [animation]
    declaration of the component needs neither. *)
Fixpoint substitute (custom : string -> option string) (cs : list string)
  : option (list string) :=
  match cs with
  | [] => Some []
  | c :: r =>
      match substitute custom r with
      | Some r' =>
          match var_reference c with
          | Some (n, fallback) =>
              match custom n, fallback with
              | Some v, _ => Some (components v ++ r')%list
              | None, Some f => Some (components f ++ r')%list
              | None, None => None
              end
          | None => Some (c :: r')
          end
      | None => None
      end
  end.

(** Keywords and units are matched without regard to case. *)
Definition lower_char (c : ascii) : ascii :=
  let n := nat_of_ascii c in
  if ((65 <=? n) && (n <=? 90))%nat then ascii_of_nat (n + 32) else c.

Fixpoint lower (s : string) : string :=
  match s with
  | EmptyString => EmptyString
  | String c r => String (lower_char c) (lower r)
  end.

Definition keyword (l : list string) (c : string) : bool :=
  existsb (String.eqb (lower c)) l.

Definition digit (c : ascii) : bool :=
  let n := nat_of_ascii c in ((48 <=? n) && (n <=? 57))%nat.

(** The text after the digits at the head of [s], and whether there was a
    digit. *)
Fixpoint skip_digits (s : string) : bool * string :=
  match s with
  | EmptyString => (false, EmptyString)
  | String c r => if digit c then (true, snd (skip_digits r)) else (false, s)
  end.

Definition skip_sign (s : string) : string :=
  match s with
  | String c r => if Ascii.eqb c "+" || Ascii.eqb c "-" then r else s
  | EmptyString => s
  end.

(** The text after the number at the head of [s]: an optional sign, digits
    with an optional fraction (or a fraction alone), an optional exponent;
    [None] when [s] does not start with a number. *)
Definition skip_number (s : string) : option string :=
  let (int, r1) := skip_digits (skip_sign s) in
  let mantissa :=
    match r1 with
    | String "." r2 =>
        let (frac, r3) := skip_digits r2 in
        if frac then Some r3 else if int then Some r1 else None
    | _ => if int then Some r1 else None
    end in
  match mantissa with
  | Some (String e r4 as r) =>
      if Ascii.eqb (lower_char e) "e" then
        let (expo, r5) := skip_digits (skip_sign r4) in
        if expo then Some r5 else Some r
      else Some r
  | other => other
  end.

(** A time: a number with the unit [s] or [ms]. *)
Definition is_time (c : string) : bool :=
  match skip_number c with
  | Some unit => keyword ["s"; "ms"] unit
  | None => false
  end.

(** A number that is not negative. *)
Definition is_count (c : string) : bool :=
  keyword ["infinite"] c
  || match c, skip_number c with
     | String "-" _, _ => false
     | _, Some EmptyString => true
     | _, _ => false
     end.

Definition is_easing (c : string) : bool :=
  keyword ["linear"; "ease"; "ease-in"; "ease-out"; "ease-in-out";
           "step-start"; "step-end"] c
  || existsb
       (fun f =>
          match Str.strip_prefix f (lower c) with
          | Some _ => true
          | None => false
          end)
       ["cubic-bezier("; "steps("; "linear("].

Definition directions : list string :=
  ["normal"; "reverse"; "alternate"; "alternate-reverse"].

Definition fill_modes : list string := ["none"; "forwards"; "backwards"; "both"].

Definition play_states : list string := ["running"; "paused"].

(** An identifier without escapes: letters, digits, underscores, hyphens
    and characters above 127, the first of them no digit. *)
Definition name_char (c : ascii) : bool :=
  let n := nat_of_ascii c in
  ((65 <=? n) && (n <=? 90) || (97 <=? n) && (n <=? 122) || (n =? 95) || (n =? 45)
   || (128 <=? n) || digit c)%nat.

Definition is_ident (c : string) : bool :=
  match c with
  | String a _ => negb (digit a) && Str.forall_chars name_char c
  | EmptyString => false
  end.

(** The longhand values of one animation; [None] where the shorthand gives
    none and the initial value applies (a delay of 0s, for one). *)
Record animation := {
  animation_name : option string;
  animation_duration : option string;
  animation_delay : option string;
  animation_timing_function : option string;
  animation_iteration_count : option string;
  animation_direction : option string;
  animation_fill_mode : option string;
  animation_play_state : option string
}.

Definition no_animation : animation :=
  {| animation_name := None; animation_duration := None; animation_delay := None;
     animation_timing_function := None; animation_iteration_count := None;
     animation_direction := None; animation_fill_mode := None;
     animation_play_state := None |}.

Definition unset (v : option string) : bool :=
  match v with
  | None => true
  | Some _ => false
  end.

(** One component value of the shorthand goes to a longhand.  The first time
    is the duration and the second the delay; a keyword of another longhand
    that is still unset goes to that longhand rather than to the name. *)
Definition assign (a : animation) (c : string) : option animation :=
  if is_time c then
    match animation_duration a, animation_delay a with
    | None, _ =>
        Some {| animation_name := animation_name a;
                animation_duration := Some c;
                animation_delay := animation_delay a;
                animation_timing_function := animation_timing_function a;
                animation_iteration_count := animation_iteration_count a;
                animation_direction := animation_direction a;
                animation_fill_mode := animation_fill_mode a;
                animation_play_state := animation_play_state a |}
    | Some _, None =>
        Some {| animation_name := animation_name a;
                animation_duration := animation_duration a;
                animation_delay := Some c;
                animation_timing_function := animation_timing_function a;
                animation_iteration_count := animation_iteration_count a;
                animation_direction := animation_direction a;
                animation_fill_mode := animation_fill_mode a;
                animation_play_state := animation_play_state a |}
    | Some _, Some _ => None
    end
  else if is_easing c && unset (animation_timing_function a) then
    Some {| animation_name := animation_name a;
            animation_duration := animation_duration a;
            animation_delay := animation_delay a;
            animation_timing_function := Some c;
            animation_iteration_count := animation_iteration_count a;
            animation_direction := animation_direction a;
            animation_fill_mode := animation_fill_mode a;
            animation_play_state := animation_play_state a |}
  else if is_count c && unset (animation_iteration_count a) then
    Some {| animation_name := animation_name a;
            animation_duration := animation_duration a;
            animation_delay := animation_delay a;
            animation_timing_function := animation_timing_function a;
            animation_iteration_count := Some c;
            animation_direction := animation_direction a;
            animation_fill_mode := animation_fill_mode a;
            animation_play_state := animation_play_state a |}
  else if keyword directions c && unset (animation_direction a) then
    Some {| animation_name := animation_name a;
            animation_duration := animation_duration a;
            animation_delay := animation_delay a;
            animation_timing_function := animation_timing_function a;
            animation_iteration_count := animation_iteration_count a;
            animation_direction := Some c;
            animation_fill_mode := animation_fill_mode a;
            animation_play_state := animation_play_state a |}
  else if keyword fill_modes c && unset (animation_fill_mode a) then
    Some {| animation_name := animation_name a;
            animation_duration := animation_duration a;
            animation_delay := animation_delay a;
            animation_timing_function := animation_timing_function a;
            animation_iteration_count := animation_iteration_count a;
            animation_direction := animation_direction a;
            animation_fill_mode := Some c;
            animation_play_state := animation_play_state a |}
  else if keyword play_states c && unset (animation_play_state a) then
    Some {| animation_name := animation_name a;
            animation_duration := animation_duration a;
            animation_delay := animation_delay a;
            animation_timing_function := animation_timing_function a;
            animation_iteration_count := animation_iteration_count a;
            animation_direction := animation_direction a;
            animation_fill_mode := animation_fill_mode a;
            animation_play_state := Some c |}
  else if is_ident c && unset (animation_name a) then
    Some {| animation_name := Some c;
            animation_duration := animation_duration a;
            animation_delay := animation_delay a;
            animation_timing_function := animation_timing_function a;
            animation_iteration_count := animation_iteration_count a;
            animation_direction := animation_direction a;
            animation_fill_mode := animation_fill_mode a;
            animation_play_state := animation_play_state a |}
  else None.

(** The [animation] shorthand of one animation, read from left to right. *)
Definition single_animation (cs : list string) : option animation :=
  fold_left
    (fun acc c =>
       match acc with
       | Some a => assign a c
       | None => None
       end)
    cs (Some no_animation).

(** The animation the rules give the elements [selector] names: their
    [animation] declaration, with the custom properties the rules declare
    for them substituted. *)
Definition animation_of (rs : list rule) (selector : string) : option animation :=
  match declared_value rs selector "animation" with
  | Some v =>
      match substitute (declared_value rs selector) (components v) with
      | Some cs => single_animation cs
      | None => None
      end
  | None => None
  end.

End CSS.

(** ** The component *)

Module GlitchText.

Import Str Number.

(** HTML Node Name *)
Definition tagName : string := "glitch-text".

(** *** Randomness

    A computation that calls [Math.random] maps the number of calls made so
    far to its result and the new number of calls. *)
Definition Rand (A : Type) : Type := nat -> A * nat.

#[export] Instance Rand_ret : MRet Rand := fun A a i => (a, i).

#[export] Instance Rand_bind : MBind Rand :=
  fun A B f m i => let '(a, j) := m i in f a j.

Section Generator.

(** [random k] is the value of the [k]-th call of [Math.random]. *)
Variable random : nat -> float.

Definition Math_random : Rand float := fun i => (random i, S i).

(** [createRandomNumber(min = 1, max = 100)] *)
Definition createRandomNumber (min max : float) : Rand float :=
  r ← Math_random;
  mret (floor (r * (max - min + 1) + min)%float).

(** The position of the keyframe of loop index [x]: [x * (1 / steps) * 100]. *)
Definition keyframe_position (x steps : nat) : float :=
  (of_nat x * (1 / of_nat steps) * 100)%float.

(** The position as the specification words it: [x * (100 / steps)]. *)
Definition specified_position (x steps : nat) : float :=
  (of_nat x * (100 / of_nat steps))%float.

(** The text one iteration of the loop appends to [clips]. *)
Definition keyframe (x steps : nat) (min max : float) : Rand string :=
  let position := keyframe_position x steps in
  t ← createRandomNumber min max;
  b ← createRandomNumber min max;
  mret ("
        " ++ toString position ++ "% {
          clip: rect(" ++ toString t ++ "px, 9999px, " ++ toString b ++ "px, 0);
        }
      ").

(** [for (let x = 0; x <= steps + 1; x++) { clips += ... }], entered at [x]. *)
Equations noise_loop (steps : nat) (min max : float) (x : nat) (clips : string)
  (i : nat) : string * nat by wf (steps + 2 - x)%nat lt :=
noise_loop steps mn mx x clips i with le_dec x (steps + 1) := {
  | left _ =>
      let '(k, j) := keyframe x steps mn mx i in
      noise_loop steps mn mx (S x) (clips ++ k) j;
  | right _ => (clips, i) }.
Next Obligation. lia. Qed.

(** The text the iteration of index [x] appends when the loop was entered
    at [x = 0] after [i] calls of [Math.random]: each iteration calls it
    twice. *)
Definition keyframe_at (steps : nat) (min max : float) (i x : nat) : string :=
  fst (keyframe x steps min max (i + 2 * x)%nat).

(** The Numbers that iteration draws for the top and for the bottom of its
    clip rectangle: two calls of [createRandomNumber], the top first. *)
Definition drawn_top (min max : float) (i x : nat) : float :=
  fst (createRandomNumber min max (i + 2 * x)%nat).

Definition drawn_bottom (min max : float) (i x : nat) : float :=
  fst (createRandomNumber min max (i + 2 * x + 1)%nat).

(** The keyframe of index [x] as a written rule. *)
Definition keyframe_written (steps : nat) (min max : float) (i x : nat) : CSS.written :=
  {| CSS.w_prelude := "
        " ++ toString (keyframe_position x steps) ++ "% ";
     CSS.w_body := "
          clip: rect(" ++ toString (drawn_top min max i x) ++ "px, 9999px, "
         ++ toString (drawn_bottom min max i x) ++ "px, 0);
        ";
     CSS.w_space := "
      " |}.

(** The rule a style engine reads from the keyframe of index [x]: its
    selector is the position with a percent sign, its body the clip
    declaration. *)
Definition entry (steps : nat) (min max : float) (i x : nat) : CSS.rule :=
  (toString (keyframe_position x steps) ++ "%",
   CSS.w_body (keyframe_written steps min max i x)).

(** [generateNoiseAnimation(steps = 20, min = 1, max = 100)] *)
Definition generateNoiseAnimation (steps : nat) (min max : float) : Rand string :=
  noise_loop steps min max 0 EmptyString.

Definition default_steps : nat := 20.
Definition default_min : float := 1%float.
Definition default_max : float := 100%float.

(** The template literal of [get styles()], with the identifier and the two
    generated keyframe texts substituted. *)
Definition styles_template (id after before : string) : string :=
"
      @media (prefers-reduced-motion: no-preference) {
        glitch-text[uuid=" ++ dq ++ id ++ dq ++ "] {
          display: inline-block;
          position: relative;
          text-wrap: balance;
        }

        glitch-text[uuid=" ++ dq ++ id ++ dq ++ "]::after,
        glitch-text[uuid=" ++ dq ++ id ++ dq ++ "]::before {
          animation: var(--glitch-anim-name) var(--glitch-anim-delay)
            var(--glitch-anim-timing, linear) var(--glitch-anim-count, infinite)
            var(--glitch-anim-dir, alternate-reverse);
          background-color: var(--glitch-backdrop, inherit);
          clip: var(--glitch-clip);
          color: var(--glitch-text, inherit);
          content: attr(data-text);
          inset-block-start: 0;
          inset-inline-start: var(--glitch-position);
          overflow: hidden;
          position: absolute;
          text-shadow: var(--glitch-shadow);
        }

        glitch-text[uuid=" ++ dq ++ id ++ dq ++ "]::after {
          --glitch-anim-delay: 2s;
          --glitch-anim-name: noise-anim-after-" ++ id ++ ";
          --glitch-clip: rect(0, 900px, 0, 0);
          --glitch-position: 0px;
          --glitch-shadow: -1px 0 var(--glitch-shadow-color);
          --glitch-shadow-color: red;
        }

        glitch-text[uuid=" ++ dq ++ id ++ dq ++ "]::before {
          --glitch-anim-delay: 3s;
          --glitch-anim-name: noise-anim-before-" ++ id ++ ";
          --glitch-clip: rect(0, 900px, 0, 0);
          --glitch-position: -2px;
          --glitch-shadow: 1px 0 var(--glitch-shadow-color);
          --glitch-shadow-color: blue;
        }

        @keyframes noise-anim-after-" ++ id ++ " {
          " ++ after ++ "
        }

        @keyframes noise-anim-before-" ++ id ++ " {
          " ++ before ++ "
        }
      }
    ".

(** The template rule by rule.  The host element with the identifier [id] is
    selected by: *)
Definition host (id : string) : string := "glitch-text[uuid=" ++ dq ++ id ++ dq ++ "]".

Definition host_rule (id : string) : CSS.written :=
  {| CSS.w_prelude := host id ++ " ";
     CSS.w_body := "
          display: inline-block;
          position: relative;
          text-wrap: balance;
        ";
     CSS.w_space := "

        " |}.

Definition copies_rule (id : string) : CSS.written :=
  {| CSS.w_prelude := host id ++ "::after,
        " ++ host id ++ "::before ";
     CSS.w_body := "
          animation: var(--glitch-anim-name) var(--glitch-anim-delay)
            var(--glitch-anim-timing, linear) var(--glitch-anim-count, infinite)
            var(--glitch-anim-dir, alternate-reverse);
          background-color: var(--glitch-backdrop, inherit);
          clip: var(--glitch-clip);
          color: var(--glitch-text, inherit);
          content: attr(data-text);
          inset-block-start: 0;
          inset-inline-start: var(--glitch-position);
          overflow: hidden;
          position: absolute;
          text-shadow: var(--glitch-shadow);
        ";
     CSS.w_space := "

        " |}.

Definition after_rule (id : string) : CSS.written :=
  {| CSS.w_prelude := host id ++ "::after ";
     CSS.w_body := "
          --glitch-anim-delay: 2s;
          --glitch-anim-name: noise-anim-after-" ++ id ++ ";
          --glitch-clip: rect(0, 900px, 0, 0);
          --glitch-position: 0px;
          --glitch-shadow: -1px 0 var(--glitch-shadow-color);
          --glitch-shadow-color: red;
        ";
     CSS.w_space := "

        " |}.

Definition before_rule (id : string) : CSS.written :=
  {| CSS.w_prelude := host id ++ "::before ";
     CSS.w_body := "
          --glitch-anim-delay: 3s;
          --glitch-anim-name: noise-anim-before-" ++ id ++ ";
          --glitch-clip: rect(0, 900px, 0, 0);
          --glitch-position: -2px;
          --glitch-shadow: 1px 0 var(--glitch-shadow-color);
          --glitch-shadow-color: blue;
        ";
     CSS.w_space := "

        " |}.

Definition after_keyframes (id after : string) : CSS.written :=
  {| CSS.w_prelude := "@keyframes noise-anim-after-" ++ id ++ " ";
     CSS.w_body := "
          " ++ after ++ "
        ";
     CSS.w_space := "

        " |}.

Definition before_keyframes (id before : string) : CSS.written :=
  {| CSS.w_prelude := "@keyframes noise-anim-before-" ++ id ++ " ";
     CSS.w_body := "
          " ++ before ++ "
        ";
     CSS.w_space := "
      " |}.

Definition media_rules (id after before : string) : list CSS.written :=
  [host_rule id; copies_rule id; after_rule id; before_rule id;
   after_keyframes id after; before_keyframes id before].

Definition media_block (id after before : string) : CSS.written :=
  {| CSS.w_prelude := "@media (prefers-reduced-motion: no-preference) ";
     CSS.w_body := "
        " ++ CSS.write_all (media_rules id after before);
     CSS.w_space := "
    " |}.

(** [get styles()] for the identifier [id]: the substitutions are evaluated
    left to right, so the [after] keyframes draw first. *)
Definition styles (id : string) : Rand string :=
  after ← generateNoiseAnimation default_steps default_min default_max;
  before ← generateNoiseAnimation default_steps default_min default_max;
  mret (styles_template id after before).

End Generator.

(** *** The platform and the state of the page *)

(** What the component asks of the platform.  [crypto.randomUUID] is taken
    to be present, as the specification assumes of the target environment. *)
Record platform := {
  (** the [k]-th value of [Math.random()] *)
  Math_random_stream : nat -> float;
  (** the [k]-th value of [self.crypto.randomUUID()] *)
  randomUUID_stream : nat -> string;
  (** ["replaceSync" in CSSStyleSheet.prototype] *)
  replaceSync_in_prototype : bool
}.

Record CSSStyleSheet := { cssText : string }.

(** One element, the document it lives in, and the calls made so far. *)
Record state := {
  (** [#uuid] *)
  priv_uuid : string;
  (** [#glitchText] *)
  priv_glitchText : string;
  (** the attributes of the host element *)
  attributes : gmap string string;
  (** the rendered text of the host element *)
  innerText : string;
  (** [document.adoptedStyleSheets] *)
  adoptedStyleSheets : list CSSStyleSheet;
  random_calls : nat;
  uuid_calls : nat
}.

(** How a call ends: normally, or by throwing. *)
Inductive completion (A : Type) : Type :=
| Normal (a : A)
| Throw (error : string).

Arguments Normal {A} a.
Arguments Throw {A} error.

Definition with_attribute (name value : string) (w : state) : state :=
  {| priv_uuid := priv_uuid w; priv_glitchText := priv_glitchText w;
     attributes := <[name := value]> (attributes w); innerText := innerText w;
     adoptedStyleSheets := adoptedStyleSheets w;
     random_calls := random_calls w; uuid_calls := uuid_calls w |}.

(** [get uuid()] *)
Definition uuid (w : state) : string := priv_uuid w.

(** [set uuid(value)] *)
Definition set_uuid (value : string) (w : state) : state :=
  let w1 :=
    {| priv_uuid := value; priv_glitchText := priv_glitchText w;
       attributes := attributes w; innerText := innerText w;
       adoptedStyleSheets := adoptedStyleSheets w;
       random_calls := random_calls w; uuid_calls := uuid_calls w |} in
  with_attribute "uuid" (priv_uuid w1) w1.

(** [get glitchText()] *)
Definition glitchText (w : state) : string := priv_glitchText w.

(** [this.dataset.text]: the attribute [data-text], [None] for [undefined]. *)
Definition dataset_text (w : state) : option string := attributes w !! "data-text".

(** [set glitchText(value)] *)
Definition set_glitchText (value : string) (w : state) : state :=
  let w1 :=
    {| priv_uuid := priv_uuid w; priv_glitchText := value;
       attributes := attributes w; innerText := innerText w;
       adoptedStyleSheets := adoptedStyleSheets w;
       random_calls := random_calls w; uuid_calls := uuid_calls w |} in
  match dataset_text w1 with
  | Some t => if String.eqb t value then w1 else with_attribute "data-text" (priv_glitchText w1) w1
  | None => with_attribute "data-text" (priv_glitchText w1) w1
  end.

(** [a || b] on an optional string: [undefined] and the empty string are
    falsy. *)
Definition or_else (a : option string) (b : string) : string :=
  match a with
  | Some (String c r) => String c r
  | Some EmptyString => b
  | None => b
  end.

Section Element.

Variable env : platform.

(** A generator run against the page's [Math.random]. *)
Definition run_random {A : Type} (m : Rand A) (w : state) : A * state :=
  let '(a, n) := m (random_calls w) in
  (a,
   {| priv_uuid := priv_uuid w; priv_glitchText := priv_glitchText w;
      attributes := attributes w; innerText := innerText w;
      adoptedStyleSheets := adoptedStyleSheets w;
      random_calls := n; uuid_calls := uuid_calls w |}).

(** [this.styles] *)
Definition get_styles (w : state) : string * state :=
  run_random (styles (Math_random_stream env) (uuid w)) w.

(** [self.crypto.randomUUID()] *)
Definition crypto_randomUUID (w : state) : string * state :=
  (randomUUID_stream env (uuid_calls w),
   {| priv_uuid := priv_uuid w; priv_glitchText := priv_glitchText w;
      attributes := attributes w; innerText := innerText w;
      adoptedStyleSheets := adoptedStyleSheets w;
      random_calls := random_calls w; uuid_calls := S (uuid_calls w) |}).

(** [sheet.replaceSync(text)]: calling a method the prototype lacks throws. *)
Definition replaceSync (sheet : CSSStyleSheet) (text : string) : completion CSSStyleSheet :=
  if replaceSync_in_prototype env then Normal {| cssText := text |}
  else Throw "TypeError: sheet.replaceSync is not a function".

(** [document.adoptedStyleSheets.push(sheet)] *)
Definition adoptedStyleSheets_push (sheet : CSSStyleSheet) (w : state) : state :=
  {| priv_uuid := priv_uuid w; priv_glitchText := priv_glitchText w;
     attributes := attributes w; innerText := innerText w;
     adoptedStyleSheets := adoptedStyleSheets w ++ [sheet];
     random_calls := random_calls w; uuid_calls := uuid_calls w |}.

(** [adoptStyles()] *)
Definition adoptStyles (w : state) : completion state :=
  if negb (replaceSync_in_prototype env) then Normal w
  else
    let sheet := {| cssText := EmptyString |} in
    let '(text, w1) := get_styles w in
    match replaceSync sheet text with
    | Normal sheet' => Normal (adoptedStyleSheets_push sheet' w1)
    | Throw e => Throw e
    end.

(** [connectedCallback()] *)
Definition connectedCallback (w : state) : completion state :=
  let '(id, w1) := crypto_randomUUID w in
  let w2 := set_uuid id w1 in
  let w3 := set_glitchText (or_else (dataset_text w2) (trim (innerText w2))) w2 in
  adoptStyles w3.

(** What a page can do with the element once it exists. *)
Inductive operation : Type :=
| Attach
| SetUuid (value : string)
| SetGlitchText (value : string)
| GetStyles
| AdoptStyles
| GenerateNoiseAnimation (steps : nat) (min max : float)
| CreateRandomNumber (min max : float).

Definition perform (op : operation) (w : state) : completion state :=
  match op with
  | Attach => connectedCallback w
  | SetUuid v => Normal (set_uuid v w)
  | SetGlitchText v => Normal (set_glitchText v w)
  | GetStyles => Normal (snd (get_styles w))
  | AdoptStyles => adoptStyles w
  | GenerateNoiseAnimation steps min max =>
      Normal (snd (run_random (generateNoiseAnimation (Math_random_stream env) steps min max) w))
  | CreateRandomNumber min max =>
      Normal (snd (run_random (createRandomNumber (Math_random_stream env) min max) w))
  end.

Fixpoint perform_all (ops : list operation) (w : state) : completion state :=
  match ops with
  | [] => Normal w
  | op :: rest =>
      match perform op w with
      | Normal w' => perform_all rest w'
      | Throw e => Throw e
      end
  end.

End Element.

(** What a call leaves of the element: its two fields, its attributes, its
    rendered text, and the UUIDs drawn so far. *)
Definition same_element (w w' : state) : Prop :=
  priv_uuid w' = priv_uuid w /\ priv_glitchText w' = priv_glitchText w
  /\ attributes w' = attributes w /\ innerText w' = innerText w
  /\ uuid_calls w' = uuid_calls w.

(** An element as the class creates it ([#uuid = ""], [#glitchText = ""]),
    with the attributes and the text the markup gives it, in a document
    that has adopted no stylesheet. *)
Definition fresh_element (attrs : gmap string string) (text : string) : state :=
  {| priv_uuid := EmptyString; priv_glitchText := EmptyString;
     attributes := attrs; innerText := text; adoptedStyleSheets := [];
     random_calls := 0; uuid_calls := 0 |}.

(** A platform for examples: [Math.random] always returns one half, and the
    first two UUIDs differ. *)
Definition example_platform (supported : bool) : platform :=
  {| Math_random_stream := fun _ => 0.5%float;
     randomUUID_stream :=
       fun k =>
         match k with
         | O => "36b8f84d-df4e-4d49-b662-bcde71a8764f"
         | S _ => "0f8fad5b-d9cb-469f-a165-70867728950e"
         end;
     replaceSync_in_prototype := supported |}.

(** Operations that are neither an attachment nor a use of the [uuid]
    setter. *)
Definition keeps_identifier (op : operation) : bool :=
  match op with
  | Attach | SetUuid _ => false
  | _ => true
  end.

(** The calls of [Math.random] an operation makes: 88 for a stylesheet (two
    animations of 22 keyframes, two calls each), which [adoptStyles] builds
    only behind its guard. *)
Definition random_cost (supported : bool) (op : operation) : nat :=
  match op with
  | Attach | AdoptStyles => if supported then 88 else 0
  | GetStyles => 88
  | GenerateNoiseAnimation steps _ _ => 2 * (steps + 2)
  | CreateRandomNumber _ _ => 1
  | SetUuid _ | SetGlitchText _ => 0
  end.

(** The calls of [crypto.randomUUID] an operation makes. *)
Definition uuid_cost (op : operation) : nat :=
  match op with
  | Attach => 1
  | _ => 0
  end.

(** Operations that publish a stylesheet. *)
Definition publishes (op : operation) : bool :=
  match op with
  | Attach | AdoptStyles => true
  | _ => false
  end.

(** The two mirrors: the [uuid] attribute holds the identifier, the
    [data-text] attribute the display text. *)
Definition mirrored (w : state) : Prop :=
  attributes w !! "uuid" = Some (uuid w) /\ dataset_text w = Some (glitchText w).

(** The value of the [animation] declaration that [styles] writes for the
    two copies. *)
Definition copies_animation : string :=
  "var(--glitch-anim-name) var(--glitch-anim-delay)
            var(--glitch-anim-timing, linear) var(--glitch-anim-count, infinite)
            var(--glitch-anim-dir, alternate-reverse)".

End GlitchText.

(** * Properties *)

Import Str Number CSS GlitchText.

(** ** Strings *)

Module StrFacts.

(** In this module appending to a literal computes. *)
#[local] Arguments String.append !s1 s2 : simpl nomatch.

Lemma app_assoc (a b c : string) : (a ++ b) ++ c = a ++ b ++ c.
Proof. induction a as [|x a IH]; simpl; [reflexivity | now rewrite IH]. Qed.

Lemma app_nil_r (a : string) : a ++ EmptyString = a.
Proof. induction a as [|x a IH]; simpl; [reflexivity | now rewrite IH]. Qed.

Lemma forall_chars_app p a b :
  forall_chars p (a ++ b) = forall_chars p a && forall_chars p b.
Proof.
  induction a as [|x a IH]; simpl; [reflexivity |].
  now rewrite IH, andb_assoc.
Qed.

Lemma forall_chars_impl (p q : ascii -> bool) s :
  (forall c, p c = true -> q c = true) ->
  forall_chars p s = true -> forall_chars q s = true.
Proof.
  intros Hpq. induction s as [|x s IH]; simpl; [reflexivity |].
  rewrite !andb_true_iff. intros [Hx Hs]. split; [now apply Hpq | now apply IH].
Qed.

Lemma free_of_app l a b : free_of l (a ++ b) = free_of l a && free_of l b.
Proof. apply forall_chars_app. Qed.

(** Fewer characters excluded, still excluded. *)
Lemma free_of_incl l l' s :
  (forall c, char_in l' c = true -> char_in l c = true) ->
  free_of l s = true -> free_of l' s = true.
Proof.
  intros H. apply forall_chars_impl. intros c Hc.
  destruct (char_in l' c) eqn:E; [|reflexivity].
  apply H in E. now rewrite E in Hc.
Qed.

Lemma free_of_cons_head c l s :
  free_of (c :: l) s = true -> free_of [c] s = true.
Proof.
  apply free_of_incl. intros x. unfold char_in. simpl.
  rewrite !orb_false_r. intros ->. reflexivity.
Qed.

Lemma free_of_cons_tail c l s :
  free_of (c :: l) s = true -> free_of l s = true.
Proof.
  apply free_of_incl. intros x. unfold char_in. simpl.
  intros ->. apply orb_true_r.
Qed.

(** *** Trimming *)

Lemma ltrim_space p a b :
  forall_chars p a = true -> ltrim_by p (a ++ b) = ltrim_by p b.
Proof.
  induction a as [|x a IH]; simpl; [reflexivity |].
  rewrite andb_true_iff. intros [-> Ha]. now apply IH.
Qed.

Lemma ltrim_keep p a b :
  forall_chars (fun c => negb (p c)) a = true ->
  ltrim_by p b = b -> ltrim_by p (a ++ b) = a ++ b.
Proof.
  destruct a as [|x a]; simpl; [intros _ H; exact H |].
  rewrite andb_true_iff. intros [Hx _] _.
  apply negb_true_iff in Hx. now rewrite Hx.
Qed.

Lemma rtrim_app p a b :
  rtrim_by p b <> EmptyString -> rtrim_by p (a ++ b) = a ++ rtrim_by p b.
Proof.
  intros Hb. induction a as [|x a IH]; simpl; [reflexivity |].
  rewrite IH. destruct (a ++ rtrim_by p b) eqn:E; [|reflexivity].
  destruct a; simpl in E; [contradiction | discriminate].
Qed.

Lemma rtrim_keep p a :
  forall_chars (fun c => negb (p c)) a = true -> rtrim_by p a = a.
Proof.
  induction a as [|x a IH]; simpl; [reflexivity |].
  rewrite andb_true_iff. intros [Hx Ha]. rewrite (IH Ha).
  apply negb_true_iff in Hx. rewrite Hx. now destruct a.
Qed.

Lemma rtrim_app_keep p a b :
  rtrim_by p a = a -> forall_chars (fun c => negb (p c)) b = true ->
  rtrim_by p (a ++ b) = a ++ b.
Proof.
  intros Ha Hb. destruct b as [|y b].
  - now rewrite app_nil_r.
  - rewrite rtrim_app; rewrite (rtrim_keep _ _ Hb); [reflexivity | discriminate].
Qed.

Lemma rtrim_space p a : forall_chars p a = true -> rtrim_by p a = EmptyString.
Proof.
  induction a as [|x a IH]; simpl; [reflexivity |].
  rewrite andb_true_iff. intros [-> Ha]. now rewrite (IH Ha).
Qed.

(** *** Splitting *)

Lemma free_of_one_cons c x a :
  free_of [c] (String x a) = negb (Ascii.eqb x c) && free_of [c] a.
Proof. unfold free_of, char_in. simpl. now rewrite orb_false_r. Qed.

Lemma split_on_nonempty c s : split_on c s <> [].
Proof. destruct s as [|a r]; simpl; [discriminate |]. destruct (Ascii.eqb a c); [discriminate |]. now destruct (split_on c r). Qed.

Lemma split_on_app c a s :
  free_of [c] a = true ->
  split_on c (a ++ s) = (a ++ List.hd EmptyString (split_on c s)) :: List.tl (split_on c s).
Proof.
  induction a as [|x a IH]; simpl.
  - intros _. pose proof (split_on_nonempty c s). now destruct (split_on c s).
  - rewrite free_of_one_cons, andb_true_iff, negb_true_iff.
    intros [-> Ha]. now rewrite (IH Ha).
Qed.

Lemma split_on_free c a : free_of [c] a = true -> split_on c a = [a].
Proof.
  intros Ha. rewrite <- (app_nil_r a) at 1. rewrite split_on_app by exact Ha.
  simpl. now rewrite app_nil_r.
Qed.

Lemma break_at_app c a s :
  free_of [c] a = true ->
  break_at c (a ++ s) =
  match break_at c s with Some (h, t) => Some (a ++ h, t) | None => None end.
Proof.
  induction a as [|x a IH]; simpl.
  - intros _. now destruct (break_at c s) as [[h t]|].
  - rewrite free_of_one_cons, andb_true_iff, negb_true_iff.
    intros [-> Ha]. rewrite (IH Ha). now destruct (break_at c s) as [[h t]|].
Qed.

Lemma strip_prefix_app p s : strip_prefix p (p ++ s) = Some s.
Proof.
  induction p as [|x p IH]; simpl; [now destruct s |].
  now rewrite Ascii.eqb_refl.
Qed.

Lemma strip_suffix_char c a :
  strip_suffix (String c EmptyString) (a ++ String c EmptyString) = Some a.
Proof.
  induction a as [|x a IH]; simpl.
  - now rewrite Ascii.eqb_refl.
  - rewrite IH. destruct (Ascii.eqb c x); [|reflexivity].
    now destruct a.
Qed.

Lemma split_on_sep c a s :
  free_of [c] a = true -> split_on c (a ++ String c s) = a :: split_on c s.
Proof.
  intros H. rewrite (split_on_app _ _ _ H). simpl. rewrite Ascii.eqb_refl. simpl.
  now rewrite app_nil_r.
Qed.

(** Splitting distributes over appending. *)
Lemma split_on_glue c a b : split_on c (a ++ b) = glue (split_on c a) (split_on c b).
Proof.
  induction a as [|x a IH]; simpl.
  - pose proof (split_on_nonempty c b). now destruct (split_on c b).
  - rewrite IH. pose proof (split_on_nonempty c a) as Ha.
    unfold glue. destruct (Ascii.eqb x c).
    + simpl. now destruct (split_on c a).
    + destruct (split_on c a) as [|h [|h' t]]; [contradiction | reflexivity | reflexivity].
Qed.

Lemma break_at_glue c a b :
  break_at c (a ++ b) =
  match break_at c a with
  | Some (h, t) => Some (h, t ++ b)
  | None =>
      match break_at c b with
      | Some (h, t) => Some (a ++ h, t)
      | None => None
      end
  end.
Proof.
  induction a as [|x a IH]; simpl.
  - now destruct (break_at c b) as [[h t]|].
  - destruct (Ascii.eqb x c); [reflexivity |].
    rewrite IH. destruct (break_at c a) as [[h t]|]; [reflexivity |].
    now destruct (break_at c b) as [[h t]|].
Qed.

Lemma break_at_free c a : free_of [c] a = true -> break_at c a = None.
Proof.
  induction a as [|x a IH]; simpl; [reflexivity |].
  rewrite free_of_one_cons, andb_true_iff, negb_true_iff.
  intros [-> Ha]. now rewrite (IH Ha).
Qed.

Lemma ltrim_glue p a b :
  ltrim_by p (a ++ b) =
  match ltrim_by p a with
  | EmptyString => ltrim_by p b
  | r => r ++ b
  end.
Proof.
  induction a as [|x a IH]; simpl; [reflexivity |].
  destruct (p x); [exact IH | reflexivity].
Qed.

Lemma rtrim_empty p a : rtrim_by p a = EmptyString -> forall_chars p a = true.
Proof.
  induction a as [|x a IH]; simpl; [reflexivity |].
  destruct (rtrim_by p a); [|discriminate].
  destruct (p x); [intros _; now apply IH | discriminate].
Qed.

(** Trimming on the right leaves alone what precedes a visible character. *)
Lemma rtrim_inked p a b :
  forall_chars p b = false -> rtrim_by p (a ++ b) = a ++ rtrim_by p b.
Proof.
  intros H. apply rtrim_app. intros E. apply rtrim_empty in E. congruence.
Qed.

Lemma strip_suffix_glue c a b :
  b <> EmptyString ->
  strip_suffix (String c EmptyString) (a ++ b)
  = option_map (append a) (strip_suffix (String c EmptyString) b).
Proof.
  intros Hb. induction a as [|x a IH]; simpl.
  - destruct (strip_suffix (String c EmptyString) b); reflexivity.
  - rewrite IH. destruct (Ascii.eqb c x).
    + destruct (a ++ b) eqn:E.
      * destruct a; simpl in E; [contradiction | discriminate].
      * now destruct (strip_suffix (String c EmptyString) b).
    + now destruct (strip_suffix (String c EmptyString) b).
Qed.

Lemma rtrim_glue p a b :
  rtrim_by p (a ++ b) =
  match rtrim_by p b with
  | EmptyString => rtrim_by p a
  | r => a ++ r
  end.
Proof.
  destruct (rtrim_by p b) eqn:E.
  - apply rtrim_empty in E. induction a as [|x a IH]; simpl.
    + now apply rtrim_space.
    + now rewrite IH.
  - rewrite rtrim_app; [now rewrite E | now rewrite E].
Qed.

(** *** What trimming removes *)

Lemma ltrim_split p s :
  exists l, s = l ++ ltrim_by p s /\ forall_chars p l = true.
Proof.
  induction s as [|x s (l & Hs & Hl)]; simpl.
  - now exists EmptyString.
  - destruct (p x) eqn:E.
    + exists (String x l). simpl. rewrite E, Hl. split; [now rewrite <- Hs | reflexivity].
    + now exists EmptyString.
Qed.

Lemma rtrim_split p s :
  exists r, s = rtrim_by p s ++ r /\ forall_chars p r = true.
Proof.
  induction s as [|x s (r & Hs & Hr)]; simpl.
  - now exists EmptyString.
  - destruct (rtrim_by p s) as [|y t] eqn:E.
    + simpl in Hs. destruct (p x) eqn:Ex.
      * exists (String x s). simpl. rewrite Ex. split; [reflexivity |].
        rewrite Hs. exact Hr.
      * exists r. simpl. split; [now rewrite Hs | exact Hr].
    + exists r. simpl. split; [now rewrite Hs at 1 | exact Hr].
Qed.

Lemma ltrim_starts p s : starts_with p (ltrim_by p s) = false.
Proof.
  induction s as [|x s IH]; simpl; [reflexivity |].
  destruct (p x) eqn:E; [exact IH | simpl; exact E].
Qed.

Lemma rtrim_ends p s : ends_with p (rtrim_by p s) = false.
Proof.
  induction s as [|x s IH]; simpl; [reflexivity |].
  destruct (rtrim_by p s) as [|y t] eqn:E.
  - destruct (p x) eqn:Ex; simpl; [reflexivity | exact Ex].
  - exact IH.
Qed.

Lemma rtrim_starts p s : starts_with p s = false -> starts_with p (rtrim_by p s) = false.
Proof.
  destruct s as [|x s]; simpl; [reflexivity |].
  intros Hx. destruct (rtrim_by p s); [rewrite Hx |]; simpl; exact Hx.
Qed.

(** Trimming removes white space at both ends and nothing else, and leaves
    no white space at either end. *)
Lemma trim_by_spec p s :
  (exists l r, s = l ++ trim_by p s ++ r
               /\ forall_chars p l = true /\ forall_chars p r = true)
  /\ starts_with p (trim_by p s) = false
  /\ ends_with p (trim_by p s) = false.
Proof.
  unfold trim_by. split; [| split].
  - destruct (ltrim_split p s) as (l & Hs & Hl).
    destruct (rtrim_split p (ltrim_by p s)) as (r & Ht & Hr).
    exists l, r. split; [| split; assumption].
    now rewrite <- Ht.
  - apply rtrim_starts, ltrim_starts.
  - apply rtrim_ends.
Qed.

Lemma app_nonempty_r (a b : string) : b <> EmptyString -> a ++ b <> EmptyString.
Proof. intros Hb. destruct a; simpl; [exact Hb | discriminate]. Qed.

Lemma trim_by_glue p a b :
  ltrim_by p a <> EmptyString -> forall_chars p b = false ->
  trim_by p (a ++ b) = ltrim_by p a ++ rtrim_by p b.
Proof.
  intros Ha Hb. unfold trim_by. rewrite ltrim_glue.
  destruct (ltrim_by p a) eqn:E; [contradiction |].
  now rewrite rtrim_inked.
Qed.

(** Space, then text without space, then text that ends visibly. *)
Lemma trim_core p w a b :
  forall_chars p w = true ->
  forall_chars (fun c => negb (p c)) a = true ->
  ltrim_by p b = b -> rtrim_by p b = b -> forall_chars p b = false ->
  trim_by p (w ++ a ++ b) = a ++ b.
Proof.
  intros Hw Ha Hl Hr Hb. unfold trim_by.
  rewrite (ltrim_space _ _ _ Hw), (ltrim_keep _ _ _ Ha Hl), (rtrim_inked _ _ _ Hb).
  now rewrite Hr.
Qed.

Lemma trim_visible p a b :
  forall_chars (fun c => negb (p c)) a = true ->
  ltrim_by p b = b -> rtrim_by p b = b -> forall_chars p b = false ->
  trim_by p (a ++ b) = a ++ b.
Proof. intros Ha Hl Hr Hb. now apply (trim_core p EmptyString a b). Qed.

Lemma eqb_app a x y : String.eqb (a ++ x) (a ++ y) = String.eqb x y.
Proof.
  induction a as [|c a IH]; simpl; [reflexivity |].
  now rewrite Ascii.eqb_refl.
Qed.

End StrFacts.

(** Some character of a text is visible: the text holds a literal that is. *)
Ltac inked :=
  rewrite ?StrFacts.forall_chars_app; simpl; rewrite ?andb_false_r; reflexivity.

(** A text that ends with a literal is not empty. *)
Ltac nonempty := repeat apply StrFacts.app_nonempty_r; discriminate.

(** ** Numbers *)

Module NumberFacts.

(** In this module appending to a literal computes. *)
#[local] Arguments String.append !s1 s2 : simpl nomatch.

Import StrFacts.

(** A fact about every character, checked on the 256 of them. *)
Ltac every_char :=
  let c := fresh "c" in
  intros c; destruct c as [[] [] [] [] [] [] [] []]; vm_compute;
  first [reflexivity | discriminate | intros; first [reflexivity | discriminate]].

Lemma string_of_uint_chars (u : Decimal.uint) :
  forall_chars num_char (NilEmpty.string_of_uint u) = true.
Proof. induction u; simpl; try rewrite IHu; reflexivity. Qed.

Lemma digits_chars (n : Z) : forall_chars num_char (digits n) = true.
Proof.
  unfold digits, NilZero.string_of_uint.
  destruct (N.to_uint (Z.to_N n)) eqn:E; try reflexivity;
    rewrite <- E; apply string_of_uint_chars.
Qed.

Lemma substring_chars p (n m : nat) (s : string) :
  forall_chars p s = true -> forall_chars p (substring n m s) = true.
Proof.
  revert n m. induction s as [|x s IH]; intros n m; simpl.
  - now destruct n, m.
  - rewrite andb_true_iff. intros [Hx Hs].
    destruct n, m; simpl; try reflexivity.
    + rewrite Hx. now apply IH.
    + now apply IH.
    + now apply IH.
Qed.

Lemma substring_digits_chars (n m : nat) (z : Z) :
  forall_chars num_char (substring n m (digits z)) = true.
Proof. apply substring_chars, digits_chars. Qed.

Lemma zeros_chars (n : Z) : forall_chars num_char (zeros n) = true.
Proof. unfold zeros. induction (Z.to_nat n) as [|k IH]; simpl; [reflexivity | exact IH]. Qed.

Lemma exponent_chars (x : Z) : forall_chars num_char (exponent x) = true.
Proof.
  unfold exponent. rewrite forall_chars_app, digits_chars.
  now destruct (0 <=? x).
Qed.

Lemma finite_toString_chars (m : positive) (e : Z) :
  forall_chars num_char (finite_toString m e) = true.
Proof.
  unfold finite_toString.
  set (r := shortest_digits m e).
  repeat match goal with
  | |- context [if ?b then _ else _] => destruct b
  end;
  rewrite ?forall_chars_app, ?digits_chars, ?zeros_chars, ?exponent_chars,
    ?substring_digits_chars; reflexivity.
Qed.

(** The text of a Number is made of digits, a point, a sign, an exponent
    mark, or spells [NaN] or [Infinity]. *)
Lemma toString_chars (f : float) : forall_chars num_char (toString f) = true.
Proof.
  unfold toString. destruct (Prim2SF f) as [s| s | | s m e]; try reflexivity.
  - now destruct s.
  - rewrite forall_chars_app, finite_toString_chars. now destruct s.
Qed.

(** So it holds none of the characters that structure CSS. *)
Lemma toString_free (l : list ascii) (f : float) :
  (forall c, num_char c = true -> negb (char_in l c) = true) ->
  free_of l (toString f) = true.
Proof.
  intros H. unfold free_of.
  exact (forall_chars_impl _ _ _ H (toString_chars f)).
Qed.

Lemma toString_no_space (f : float) :
  forall_chars (fun c => negb (css_space c)) (toString f) = true.
Proof.
  apply (forall_chars_impl num_char); [|apply toString_chars]. every_char.
Qed.

End NumberFacts.

(** ** Reading what was written *)

Module CSSFacts.

(** In this module appending to a literal computes. *)
#[local] Arguments String.append !s1 s2 : simpl nomatch.

Import StrFacts NumberFacts.

Lemma scan_app st a b :
  scan st (a ++ b) = match scan st a with Some st' => scan st' b | None => None end.
Proof.
  revert st. induction a as [|x a IH]; intros st; simpl; [reflexivity |].
  destruct (scan_char st x); [apply IH | reflexivity].
Qed.

Lemma free_of_braces_cons x t :
  free_of ["{"; "}"]%char (String x t) = true ->
  Ascii.eqb x "{" = false /\ Ascii.eqb x "}" = false /\ free_of ["{"; "}"]%char t = true.
Proof.
  unfold free_of, char_in. simpl.
  rewrite orb_false_r, andb_true_iff, negb_true_iff, orb_false_iff. tauto.
Qed.

(** Outside every block, text without braces extends the prelude. *)
Lemma scan_prelude p t rs :
  free_of ["{"; "}"]%char t = true ->
  scan {| depth := 0; prelude := p; body := EmptyString; rules := rs |} t
  = Some {| depth := 0; prelude := p ++ t; body := EmptyString; rules := rs |}.
Proof.
  revert p. induction t as [|x t IH]; intros p H; simpl.
  - now rewrite app_nil_r.
  - apply free_of_braces_cons in H as (H1 & H2 & H3).
    unfold scan_char. simpl. rewrite H1, H2.
    rewrite (IH _ H3). unfold push. now rewrite app_assoc.
Qed.

(** Inside a block, text whose braces stay inside extends the body. *)
Lemma scan_body d d' p b t rs :
  nesting (S d) t = Some d' ->
  scan {| depth := S d; prelude := p; body := b; rules := rs |} t
  = Some {| depth := d'; prelude := p; body := b ++ t; rules := rs |}.
Proof.
  revert d b. induction t as [|x t IH]; intros d b; simpl.
  - intros [= <-]. now rewrite app_nil_r.
  - unfold scan_char. simpl.
    destruct (Ascii.eqb x "{") eqn:E1.
    + apply Ascii.eqb_eq in E1. subst x. simpl.
      intros H. destruct d; rewrite (IH _ _ H); unfold push; now rewrite app_assoc.
    + destruct (Ascii.eqb x "}") eqn:E2.
      * destruct d as [|d]; [discriminate |].
        intros H. rewrite (IH _ _ H). unfold push. now rewrite app_assoc.
      * intros H. destruct d; rewrite (IH _ _ H); unfold push; now rewrite app_assoc.
Qed.

Lemma nesting_app d a b :
  nesting d (a ++ b) = match nesting d a with Some d' => nesting d' b | None => None end.
Proof.
  revert d. induction a as [|x a IH]; intros d; simpl; [reflexivity |].
  destruct (Ascii.eqb x "{"); [apply IH |].
  destruct (Ascii.eqb x "}"); [|apply IH].
  destruct d as [|[|d]]; try reflexivity. apply IH.
Qed.

Lemma nesting_free d t : free_of ["{"; "}"]%char t = true -> nesting d t = Some d.
Proof.
  induction t as [|x t IH]; simpl; [reflexivity |].
  intros H. apply free_of_braces_cons in H as (-> & -> & H). now apply IH.
Qed.

Lemma space_free_of_braces t :
  forall_chars css_space t = true -> free_of ["{"; "}"]%char t = true.
Proof. apply forall_chars_impl. every_char. Qed.

Lemma css_trim_space a b :
  forall_chars css_space a = true ->
  trim_by css_space (a ++ b) = trim_by css_space b.
Proof. intros H. unfold trim_by. now rewrite ltrim_space. Qed.

(** Reading one written rule. *)
Lemma scan_write (sp : string) (b : written) (rs : list rule) (rest : string) :
  forall_chars css_space sp = true ->
  well_written b = true ->
  scan {| depth := 0; prelude := sp; body := EmptyString; rules := rs |} (write b ++ rest)
  = scan {| depth := 0; prelude := w_space b; body := EmptyString;
            rules := rs ++ [read_back b] |} rest.
Proof.
  intros Hsp. unfold well_written. rewrite !andb_true_iff. intros [[Hp Hb] Hw].
  destruct (nesting 1 (w_body b)) as [[|[|n]]|] eqn:Hn; try discriminate.
  unfold write. rewrite !app_assoc.
  rewrite scan_app, (scan_prelude _ _ _ Hp). simpl.
  rewrite scan_app, (scan_body _ _ _ _ _ _ Hn). simpl.
  rewrite scan_app, (scan_prelude _ _ _ (space_free_of_braces _ Hw)). simpl.
  unfold read_back. now rewrite (css_trim_space _ _ Hsp).
Qed.

Lemma scan_write_all (l : list written) (sp : string) (rs : list rule) :
  forall_chars css_space sp = true ->
  forallb well_written l = true ->
  exists sp',
    forall_chars css_space sp' = true /\
    scan {| depth := 0; prelude := sp; body := EmptyString; rules := rs |} (write_all l)
    = Some {| depth := 0; prelude := sp'; body := EmptyString;
              rules := rs ++ map read_back l |}.
Proof.
  revert sp rs. induction l as [|b l IH]; intros sp rs Hsp; simpl.
  - intros _. exists sp. now rewrite List.app_nil_r.
  - rewrite andb_true_iff. intros [Hb Hl].
    rewrite (scan_write _ _ _ _ Hsp Hb).
    assert (Hw : forall_chars css_space (w_space b) = true).
    { unfold well_written in Hb. now apply andb_true_iff in Hb as [_ Hb]. }
    destruct (IH (w_space b) (rs ++ [read_back b])%list Hw Hl) as (sp' & H1 & H2).
    exists sp'. split; [exact H1 |]. rewrite H2. now rewrite <- List.app_assoc.
Qed.

(** Reading gives back what was written: the rules, one per written rule and
    in the order they were written. *)
Lemma css_rules_write_all (lead : string) (l : list written) :
  forall_chars css_space lead = true ->
  forallb well_written l = true ->
  css_rules (lead ++ write_all l) = Some (map read_back l).
Proof.
  intros Hlead Hl. unfold css_rules.
  rewrite scan_app. unfold start.
  rewrite (scan_prelude _ _ _ (space_free_of_braces _ Hlead)). simpl.
  destruct (scan_write_all l lead [] Hlead Hl) as (sp' & H1 & H2).
  rewrite H2. simpl. now rewrite H1.
Qed.

Lemma css_rules_written (l : list written) :
  forallb well_written l = true -> css_rules (write_all l) = Some (map read_back l).
Proof. intros Hl. now apply (css_rules_write_all EmptyString). Qed.

End CSSFacts.

(** ** Facts about values *)

Module ValueFacts.
Import StrFacts NumberFacts.

#[local] Open Scope nat_scope.
#[local] Arguments String.append !s1 s2 : simpl nomatch.

Lemma components_from_atom (s current : string) :
  free_of ["009"; "010"; "012"; "013"; " "; "("; ")"]%char s = true ->
  current ++ s <> EmptyString ->
  components_from 0 current s = [current ++ s].
Proof.
  revert current. induction s as [|c s IH]; intros current Hs Hne.
  - rewrite app_nil_r in *. destruct current; [contradiction | reflexivity].
  - unfold free_of in Hs. cbn [forall_chars] in Hs.
    apply andb_true_iff in Hs. destruct Hs as [Hc Hs].
    cbn [components_from].
    replace (css_space c && (0 =? 0)) with false
      by (revert Hc; clear; revert c; every_char).
    replace (if Ascii.eqb c "(" then 1 else if Ascii.eqb c ")" then Nat.pred 0 else 0)
      with 0 by (revert Hc; clear; revert c; every_char).
    rewrite IH; [| exact Hs |].
    + unfold push. now rewrite app_assoc.
    + unfold push. rewrite app_assoc. exact Hne.
Qed.

(** A text without white space and parentheses is one component value. *)
Lemma components_atom (s : string) :
  free_of ["009"; "010"; "012"; "013"; " "; "("; ")"]%char s = true ->
  s <> EmptyString ->
  components s = [s].
Proof. intros Hs Hne. now apply (components_from_atom s EmptyString). Qed.

Lemma uuid_atom (id : string) :
  forall_chars uuid_char id = true ->
  free_of ["009"; "010"; "012"; "013"; " "; "("; ")"]%char id = true.
Proof. apply forall_chars_impl. every_char. Qed.

Lemma uuid_name (id : string) :
  forall_chars uuid_char id = true -> forall_chars name_char id = true.
Proof. apply forall_chars_impl. every_char. Qed.

End ValueFacts.

(** ** The keyframe generator *)

Module GeneratorFacts.

(** In this module appending to a literal computes. *)
#[local] Arguments String.append !s1 s2 : simpl nomatch.

Import StrFacts NumberFacts CSSFacts.

Section Generator.

Variable random : nat -> float.

Lemma createRandomNumber_calls min max i :
  snd (createRandomNumber random min max i) = S i.
Proof. reflexivity. Qed.

Lemma keyframe_calls x steps min max i :
  snd (keyframe random x steps min max i) = S (S i).
Proof. reflexivity. Qed.

Lemma keyframe_at_written steps min max i x :
  keyframe_at random steps min max i x = write (keyframe_written random steps min max i x).
Proof.
  unfold keyframe_at, keyframe, keyframe_written, write, drawn_top, drawn_bottom.
  cbn [mbind mret Rand_bind Rand_ret createRandomNumber Math_random fst snd
       w_prelude w_body w_space].
  rewrite !app_assoc. replace (i + 2 * x + 1)%nat with (S (i + 2 * x)) by lia.
  reflexivity.
Qed.

(** The loop entered at [x] appends the keyframes of the indices
    [x, ..., steps + 1], in this order, and calls [Math.random] twice for
    each. *)
Lemma noise_loop_from steps min max i n :
  forall x clips, (x + n = steps + 2)%nat ->
  noise_loop random steps min max x clips (i + 2 * x)%nat
  = (clips ++ join (map (keyframe_at random steps min max i) (seq x n)),
     (i + 2 * (steps + 2))%nat).
Proof.
  induction n as [|n IH]; intros x clips Hx;
    rewrite noise_loop_equation_1; unfold noise_loop_unfold_clause_1;
    destruct (le_dec x (steps + 1)) as [Hle|Hgt]; try lia.
  - simpl. rewrite app_nil_r. f_equal. lia.
  - rewrite (surjective_pairing (keyframe random x steps min max (i + 2 * x)%nat)).
    rewrite keyframe_calls. fold (keyframe_at random steps min max i x).
    replace (S (S (i + 2 * x))) with (i + 2 * S x)%nat by lia.
    rewrite IH by lia. simpl. now rewrite app_assoc.
Qed.

(** [generateNoiseAnimation] returns the [steps + 2] keyframes of the loop
    indices [0, ..., steps + 1] one after the other. *)
Lemma generateNoiseAnimation_text steps min max i :
  generateNoiseAnimation random steps min max i
  = (join (map (keyframe_at random steps min max i) (seq 0 (steps + 2))),
     (i + 2 * (steps + 2))%nat).
Proof.
  unfold generateNoiseAnimation.
  replace i with (i + 2 * 0)%nat at 1 by lia.
  now rewrite (noise_loop_from steps min max i (steps + 2)) by lia.
Qed.

Lemma join_write (l : list written) : join (map write l) = write_all l.
Proof. induction l as [|b l IH]; simpl; [reflexivity | now rewrite IH]. Qed.

Lemma generateNoiseAnimation_written steps min max i :
  fst (generateNoiseAnimation random steps min max i)
  = write_all (map (keyframe_written random steps min max i) (seq 0 (steps + 2))).
Proof.
  rewrite generateNoiseAnimation_text. simpl fst.
  rewrite <- join_write, map_map.
  f_equal. apply map_ext. intros x. apply keyframe_at_written.
Qed.

Lemma keyframe_well_written steps min max i x :
  well_written (keyframe_written random steps min max i x) = true.
Proof.
  unfold well_written, keyframe_written. cbn [w_prelude w_body w_space].
  assert (Hnum : forall f, free_of ["{"; "}"]%char (toString f) = true).
  { intros f. apply toString_free. every_char. }
  rewrite !andb_true_iff. repeat split.
  - rewrite !free_of_app, Hnum. reflexivity.
  - rewrite nesting_free; [reflexivity |].
    rewrite !free_of_app, !Hnum. reflexivity.
Qed.

Lemma keyframes_well_written steps min max i (xs : list nat) :
  forallb well_written (map (keyframe_written random steps min max i) xs) = true.
Proof.
  induction xs as [|x xs IH]; simpl; [reflexivity |].
  now rewrite keyframe_well_written, IH.
Qed.

End Generator.

End GeneratorFacts.

(** ** What [generateNoiseAnimation] emits *)

Module Keyframes.

Import StrFacts NumberFacts CSSFacts GeneratorFacts.

#[local] Open Scope nat_scope.

Section Generator.

Variable random : nat -> float.

Lemma keyframe_read_back steps min max i x :
  read_back (keyframe_written random steps min max i x) = entry random steps min max i x.
Proof.
  unfold read_back, entry, keyframe_written. cbn [w_prelude w_body]. f_equal.
  rewrite css_trim_space by reflexivity.
  unfold trim_by.
  rewrite ltrim_keep; [| apply toString_no_space | reflexivity].
  rewrite rtrim_inked by reflexivity. reflexivity.
Qed.

(** Reading the generated text gives one rule per loop index, in the order
    of the indices. *)
Lemma generated_rules steps min max i :
  css_rules (fst (generateNoiseAnimation random steps min max i))
  = Some (map (entry random steps min max i) (seq 0 (steps + 2))).
Proof.
  rewrite generateNoiseAnimation_written.
  rewrite css_rules_written by apply keyframes_well_written.
  rewrite map_map. f_equal. apply map_ext. intros x. apply keyframe_read_back.
Qed.

Lemma clip_rect_text (T B : string) :
  free_of [";"; ","]%char T = true ->
  forall_chars (fun c => negb (css_space c)) T = true ->
  free_of [";"; ","]%char B = true ->
  forall_chars (fun c => negb (css_space c)) B = true ->
  clip_rect ("
          clip: rect(" ++ T ++ "px, 9999px, " ++ B ++ "px, 0);
        ")
  = Some {| top := T ++ "px"; right := "9999px"; bottom := B ++ "px"; left := "0" |}.
Proof.
  intros HT HT' HB HB'.
  pose proof (free_of_cons_head _ _ _ HT) as HT1.
  pose proof (free_of_cons_tail _ _ _ HT) as HT2.
  pose proof (free_of_cons_head _ _ _ HB) as HB1.
  pose proof (free_of_cons_tail _ _ _ HB) as HB2.
  unfold clip_rect, declared_in, declarations.
  rewrite !split_on_glue, (split_on_free _ T HT1), (split_on_free _ B HB1).
  simpl.
  rewrite trim_by_glue by (first [discriminate | inked]).
  rewrite !rtrim_inked by inked.
  simpl (rtrim_by _ _). simpl (ltrim_by _ _).
  unfold rect_offsets, function_args.
  change ("rect" ++ "(") with "rect(".
  rewrite strip_prefix_app.
  rewrite !strip_suffix_glue by nonempty.
  simpl (strip_suffix _ _). simpl option_map. cbv beta iota.
  rewrite !split_on_glue, (split_on_free _ T HT2), (split_on_free _ B HB2).
  simpl.
  rewrite (trim_visible css_space T "px") by (first [assumption | reflexivity]).
  rewrite (trim_core css_space " " B "px") by (first [assumption | reflexivity]).
  reflexivity.
Qed.

Lemma entry_clip_rect steps min max i x :
  clip_rect (snd (entry random steps min max i x))
  = Some {| top := toString (drawn_top random min max i x) ++ "px";
            right := "9999px";
            bottom := toString (drawn_bottom random min max i x) ++ "px";
            left := "0" |}.
Proof.
  unfold entry, keyframe_written. cbn [snd w_body].
  apply clip_rect_text;
    first [apply toString_no_space | apply toString_free; every_char].
Qed.

End Generator.

(** C1: for every number of steps (and every [min], [max] and source of
    randomness), the text [generateNoiseAnimation(steps, min, max)] returns
    holds exactly [steps + 2] keyframe entries, one per loop index
    [0, ..., steps + 1]. *)
Theorem generateNoiseAnimation_entry_count
  (random : nat -> float) (steps : nat) (min max : float) (i : nat) :
  exists entries : list rule,
    css_rules (fst (generateNoiseAnimation random steps min max i)) = Some entries
    /\ length entries = (steps + 2)%nat
    /\ entries = map (entry random steps min max i) (seq 0 (steps + 2)).
Proof.
  exists (map (entry random steps min max i) (seq 0 (steps + 2))).
  split; [apply generated_rules |].
  split; [| reflexivity].
  now rewrite length_map, length_seq.
Qed.

(** C8, as stated, fails: with the default [steps = 20] the entry of loop
    index 3 is written at [15.000000000000002%], the value of
    [3 * (1 / 20) * 100] in double precision, while [3 * (100 / 20)] is
    [15]. *)
Lemma written_position_is_not_the_specified_one :
  exists entries : list rule,
    css_rules (fst (generateNoiseAnimation (fun _ => 0.5%float) 20 1 100 0)) = Some entries
    /\ nth_error (map fst entries) 3 = Some "15.000000000000002%"
    /\ toString (specified_position 3 20) ++ "%" = "15%"
    /\ nth_error (map fst entries) 3 <> Some (toString (specified_position 3 20) ++ "%").
Proof.
  eexists. split; [vm_compute; reflexivity |].
  split; [vm_compute; reflexivity |].
  split; [vm_compute; reflexivity |].
  vm_compute. discriminate.
Qed.

(** C8, amended: for every number of steps, the position written in the
    entry of loop index [x] is the Number [x * (1 / steps) * 100], computed in
    double precision from left to right, followed by a percent sign; and the
    keyframe blocks stand in ascending order of [x]. *)
Theorem written_positions
  (random : nat -> float) (steps : nat) (min max : float) (i : nat) :
  exists entries : list rule,
    css_rules (fst (generateNoiseAnimation random steps min max i)) = Some entries
    /\ map fst entries
       = map (fun x => toString (of_nat x * (1 / of_nat steps) * 100)%float ++ "%")
           (seq 0 (steps + 2)).
Proof.
  exists (map (entry random steps min max i) (seq 0 (steps + 2))).
  split; [apply generated_rules |].
  rewrite map_map. reflexivity.
Qed.

(** C4, as stated, fails: in [rect(top, right, bottom, left)] the large
    constant is the right offset and 0 is the left one. *)
Lemma clip_left_is_zero_and_right_is_large :
  exists entries : list rule,
    css_rules (fst (generateNoiseAnimation (fun _ => 0.5%float) 20 1 100 0)) = Some entries
    /\ option_map (fun e => clip_rect (snd e)) (nth_error entries 0)
       = Some (Some {| top := "51px"; right := "9999px"; bottom := "51px"; left := "0" |}).
Proof. eexists. split; vm_compute; reflexivity. Qed.

(** C4, amended: every keyframe entry declares a clip rectangle whose top
    and bottom offsets are, in pixels, the results of two separate calls of
    [createRandomNumber(min, max)], each on its own value of [Math.random]
    (the top first), whose right offset is fixed at [9999px] and whose left
    offset is fixed at [0]. *)
Theorem clip_rectangles
  (random : nat -> float) (steps : nat) (min max : float) (i : nat) :
  exists entries : list rule,
    css_rules (fst (generateNoiseAnimation random steps min max i)) = Some entries
    /\ map (fun e => clip_rect (snd e)) entries
       = map (fun x =>
                Some {| top := toString (drawn_top random min max i x) ++ "px";
                        right := "9999px";
                        bottom := toString (drawn_bottom random min max i x) ++ "px";
                        left := "0" |})
           (seq 0 (steps + 2))
    /\ forall x : nat,
         drawn_top random min max i x
         = floor (random (i + 2 * x)%nat * (max - min + 1) + min)%float
         /\ drawn_bottom random min max i x
            = floor (random (i + 2 * x + 1)%nat * (max - min + 1) + min)%float.
Proof.
  exists (map (entry random steps min max i) (seq 0 (steps + 2))).
  split; [apply generated_rules |].
  split; [| intros x; split; reflexivity].
  rewrite map_map. apply map_ext. intros x. apply entry_clip_rect.
Qed.

(** C7: the code returns a value above [max].  [Math.random] may return
    the largest Number below 1, [1 - 2^-53]; then [r * (2 - 1 + 1) + 1] is
    [3 - 2^-52] before rounding, halfway between two Numbers, and rounds to
    [3]: [createRandomNumber(1, 2)] returns 3, and the keyframes generated
    for that range clip at [3px]. *)
Theorem createRandomNumber_above_max :
  let r := 0x1.fffffffffffffp-1%float in
  (0 <=? r)%float = true
  /\ (r <? 1)%float = true
  /\ toString r = "0.9999999999999999"
  /\ fst (createRandomNumber (fun _ => r) 1 2 0) = 3%float
  /\ option_map (map (fun e => clip_rect (snd e)))
       (css_rules (fst (generateNoiseAnimation (fun _ => r) 0 1 2 0)))
     = Some [Some {| top := "3px"; right := "9999px"; bottom := "3px"; left := "0" |};
             Some {| top := "3px"; right := "9999px"; bottom := "3px"; left := "0" |}].
Proof. repeat split; vm_compute; reflexivity. Qed.

End Keyframes.

(** ** The stylesheet *)

Module Stylesheet.

Import StrFacts NumberFacts CSSFacts ValueFacts GeneratorFacts.

#[local] Open Scope nat_scope.

Section Template.

#[local] Arguments String.append !s1 s2 : simpl nomatch.

(** The template is the media block, written after a line break. *)
Lemma styles_template_written (id after before : string) :
  styles_template id after before = "
      " ++ write (media_block id after before).
Proof.
  unfold styles_template, media_block, write_all, media_rules,
    host_rule, copies_rule, after_rule, before_rule, after_keyframes,
    before_keyframes, host, write.
  cbn [fold_right w_prelude w_body w_space].
  rewrite !app_assoc. simpl. reflexivity.
Qed.

End Template.

(** *** Braces *)

Lemma nesting_shift (k : nat) (t : string) :
  forall d d', nesting d t = Some d' -> nesting (d + k) t = Some (d' + k).
Proof.
  induction t as [|x t IH]; intros d d'; simpl.
  - now intros [= ->].
  - destruct (Ascii.eqb x "{"); [apply (IH (S d)) |].
    destruct (Ascii.eqb x "}"); [| apply IH].
    destruct d as [|[|d]]; try discriminate. apply (IH (S d)).
Qed.

Lemma nesting_deeper (d : nat) (t : string) :
  nesting 1 t = Some 1 -> nesting (S d) t = Some (S d).
Proof. intros H. apply (nesting_shift d) in H. exact H. Qed.

(** A well-written rule leaves the depth as it found it. *)
Lemma nesting_write (d : nat) (b : written) :
  well_written b = true -> nesting (S d) (write b) = Some (S d).
Proof.
  unfold well_written. rewrite !andb_true_iff. intros [[Hp Hb] Hw].
  destruct (nesting 1 (w_body b)) as [[|[|n]]|] eqn:Hn; try discriminate.
  unfold write.
  rewrite nesting_app, (nesting_free _ _ Hp).
  change ("{" ++ w_body b ++ "}" ++ w_space b)
    with (String "{" (w_body b ++ "}" ++ w_space b)).
  cbn [nesting]. change (Ascii.eqb "{" "{") with true. cbv iota.
  rewrite nesting_app, (nesting_deeper (S d) _ Hn).
  change ("}" ++ w_space b) with (String "}" (w_space b)).
  cbn [nesting]. change (Ascii.eqb "}" "{") with false.
  change (Ascii.eqb "}" "}") with true. cbv iota.
  apply nesting_free, space_free_of_braces, Hw.
Qed.

Lemma nesting_write_all (d : nat) (l : list written) :
  forallb well_written l = true -> nesting (S d) (write_all l) = Some (S d).
Proof.
  induction l as [|b l IH]; simpl; [reflexivity |].
  rewrite andb_true_iff. intros [Hb Hl].
  now rewrite nesting_app, (nesting_write _ _ Hb), (IH Hl).
Qed.

(** The generated keyframes keep their braces to themselves. *)
Lemma generated_nesting (random : nat -> float) steps min max i d :
  nesting (S d) (fst (generateNoiseAnimation random steps min max i)) = Some (S d).
Proof.
  rewrite generateNoiseAnimation_written.
  apply nesting_write_all, keyframes_well_written.
Qed.

Lemma keyframes_body_nesting (kf : string) :
  nesting 1 kf = Some 1 ->
  nesting 1 ("
          " ++ kf ++ "
        ") = Some 1.
Proof.
  intros H. rewrite nesting_app, nesting_free by reflexivity.
  rewrite nesting_app, H. reflexivity.
Qed.

(** With an identifier that holds no brace, the six rules of the template
    are well written. *)
Lemma media_rules_well_written (id after before : string) :
  free_of ["{"; "}"]%char id = true ->
  nesting 1 after = Some 1 -> nesting 1 before = Some 1 ->
  forallb well_written (media_rules id after before) = true.
Proof.
  intros Hid Ha Hb.
  unfold media_rules, forallb, well_written, host_rule, copies_rule, after_rule,
    before_rule, after_keyframes, before_keyframes, host.
  cbn [w_prelude w_body w_space].
  rewrite !keyframes_body_nesting by assumption.
  rewrite !(nesting_free 1) by (rewrite ?free_of_app, ?Hid; reflexivity).
  rewrite !free_of_app, !Hid. reflexivity.
Qed.

Lemma media_block_well_written (id after before : string) :
  free_of ["{"; "}"]%char id = true ->
  nesting 1 after = Some 1 -> nesting 1 before = Some 1 ->
  well_written (media_block id after before) = true.
Proof.
  intros Hid Ha Hb. unfold well_written, media_block. cbn [w_prelude w_body w_space].
  rewrite nesting_app, nesting_free by reflexivity.
  rewrite nesting_write_all by now apply media_rules_well_written.
  reflexivity.
Qed.

(** The template reads as one rule, the media block. *)
Lemma styles_template_rules (id after before : string) :
  free_of ["{"; "}"]%char id = true ->
  nesting 1 after = Some 1 -> nesting 1 before = Some 1 ->
  css_rules (styles_template id after before)
  = Some [(no_preference, w_body (media_block id after before))].
Proof.
  intros Hid Ha Hb. rewrite styles_template_written.
  replace (write (media_block id after before))
    with (write_all [media_block id after before])
    by (simpl; apply app_nil_r).
  rewrite css_rules_write_all;
    [reflexivity | reflexivity |].
  simpl. now rewrite media_block_well_written.
Qed.

Lemma styles_text (random : nat -> float) (id : string) (i : nat) :
  fst (styles random id i)
  = styles_template id
      (fst (generateNoiseAnimation random default_steps default_min default_max i))
      (fst (generateNoiseAnimation random default_steps default_min default_max
              (i + 2 * (default_steps + 2)))).
Proof.
  unfold styles, mbind, Rand_bind, mret, Rand_ret.
  rewrite (generateNoiseAnimation_text random default_steps default_min default_max i).
  cbv beta iota. cbn [fst].
  now destruct (generateNoiseAnimation random default_steps default_min default_max
                  (i + 2 * (default_steps + 2))).
Qed.

(** *** The rules inside the media block *)

Section Host.

(** An identifier without brace, comma, semicolon or white space. *)
Variable id : string.
Hypothesis Hid : free_of ["{"; "}"; ","; ";"]%char id = true.
Hypothesis Hsp : forall_chars (fun c => negb (css_space c)) id = true.

Lemma host_ltrim x : ltrim_by css_space (host id ++ x) = host id ++ x.
Proof. unfold host. rewrite !app_assoc, ltrim_glue. reflexivity. Qed.

Lemma host_inked x : forall_chars css_space (host id ++ x) = false.
Proof. unfold host. rewrite !app_assoc. reflexivity. Qed.

Lemma host_rtrim : rtrim_by css_space (host id) = host id.
Proof. unfold host. rewrite !rtrim_inked by inked. reflexivity. Qed.

Lemma trim_host_rule : trim_by css_space (w_prelude (host_rule id)) = host id.
Proof.
  unfold host_rule, trim_by. cbn [w_prelude].
  rewrite host_ltrim, rtrim_glue. simpl. apply host_rtrim.
Qed.

Lemma trim_copies_rule :
  trim_by css_space (w_prelude (copies_rule id))
  = host id ++ "::after,
        " ++ host id ++ "::before".
Proof.
  unfold copies_rule, trim_by. cbn [w_prelude].
  rewrite host_ltrim.
  rewrite rtrim_inked by inked.
  rewrite rtrim_inked by (apply host_inked).
  rewrite rtrim_inked by inked.
  reflexivity.
Qed.

Lemma trim_after_rule : trim_by css_space (w_prelude (after_rule id)) = host id ++ "::after".
Proof.
  unfold after_rule, trim_by. cbn [w_prelude].
  rewrite host_ltrim, rtrim_inked by inked. reflexivity.
Qed.

Lemma trim_before_rule : trim_by css_space (w_prelude (before_rule id)) = host id ++ "::before".
Proof.
  unfold before_rule, trim_by. cbn [w_prelude].
  rewrite host_ltrim, rtrim_inked by inked. reflexivity.
Qed.

Lemma trim_name (a : string) :
  ltrim_by css_space a <> EmptyString ->
  rtrim_by css_space (ltrim_by css_space a) = ltrim_by css_space a ->
  trim_by css_space (a ++ id ++ " ") = ltrim_by css_space a ++ id.
Proof.
  intros Ha Hr. unfold trim_by. rewrite ltrim_glue.
  destruct (ltrim_by css_space a) as [|c r] eqn:E; [contradiction |].
  rewrite <- app_assoc, rtrim_glue. simpl rtrim_by at 1. cbv iota.
  now apply rtrim_app_keep.
Qed.

Lemma trim_after_keyframes a :
  trim_by css_space (w_prelude (after_keyframes id a)) = "@keyframes noise-anim-after-" ++ id.
Proof. unfold after_keyframes. cbn [w_prelude]. rewrite trim_name; first [reflexivity | discriminate]. Qed.

Lemma trim_before_keyframes a :
  trim_by css_space (w_prelude (before_keyframes id a)) = "@keyframes noise-anim-before-" ++ id.
Proof. unfold before_keyframes. cbn [w_prelude]. rewrite trim_name; first [reflexivity | discriminate]. Qed.

Lemma read_media_rules a b :
  map read_back (media_rules id a b)
  = [(host id, w_body (host_rule id));
     (host id ++ "::after,
        " ++ host id ++ "::before", w_body (copies_rule id));
     (host id ++ "::after", w_body (after_rule id));
     (host id ++ "::before", w_body (before_rule id));
     ("@keyframes noise-anim-after-" ++ id, w_body (after_keyframes id a));
     ("@keyframes noise-anim-before-" ++ id, w_body (before_keyframes id b))].
Proof.
  unfold media_rules, map, read_back.
  now rewrite trim_host_rule, trim_copies_rule, trim_after_rule, trim_before_rule,
    trim_after_keyframes, trim_before_keyframes.
Qed.

Let Hcomma : free_of [","]%char id = true.
Proof. apply (free_of_incl ["{"; "}"; ","; ";"]%char); [every_char | exact Hid]. Qed.

Let Hsemi : free_of [";"]%char id = true.
Proof. apply (free_of_incl ["{"; "}"; ","; ";"]%char); [every_char | exact Hid]. Qed.

Lemma host_no_comma : free_of [","]%char (host id) = true.
Proof. unfold host. rewrite !free_of_app, Hcomma. reflexivity. Qed.

Lemma trim_host x :
  rtrim_by css_space x = x -> forall_chars css_space x = false \/ x = EmptyString ->
  trim_by css_space (host id ++ x) = host id ++ x.
Proof.
  intros Hx [Hi | ->]; unfold trim_by; rewrite host_ltrim.
  - now rewrite rtrim_inked, Hx.
  - rewrite app_nil_r. apply host_rtrim.
Qed.

(** The selectors each rule lists. *)
Lemma selectors_host x :
  free_of [","]%char x = true ->
  rtrim_by css_space x = x -> forall_chars css_space x = false \/ x = EmptyString ->
  selectors (host id ++ x) = [host id ++ x].
Proof.
  intros Hc Hx Hi. unfold selectors.
  rewrite split_on_free by (rewrite free_of_app, host_no_comma, Hc; reflexivity).
  cbn [map]. now rewrite trim_host.
Qed.

Lemma selectors_copies :
  selectors (host id ++ "::after,
        " ++ host id ++ "::before")
  = [host id ++ "::after"; host id ++ "::before"].
Proof.
  unfold selectors.
  rewrite !split_on_glue, !(split_on_free _ _ host_no_comma).
  cbn [split_on glue List.removelast List.last List.hd List.tl List.app Ascii.eqb Bool.eqb].
  cbn [map]. rewrite (css_trim_space _ (host id ++ "::before")) by reflexivity.
  rewrite !trim_host by (first [reflexivity | left; reflexivity]).
  reflexivity.
Qed.

Lemma trim_named (name : string) :
  name <> EmptyString ->
  ltrim_by css_space name = name -> rtrim_by css_space name = name ->
  trim_by css_space (name ++ id) = name ++ id.
Proof.
  intros Hn Hl Hr. unfold trim_by. rewrite ltrim_glue, Hl.
  destruct name as [|c r]; [contradiction |].
  now apply rtrim_app_keep.
Qed.

Lemma selectors_named (name : string) :
  free_of [","]%char name = true ->
  name <> EmptyString ->
  ltrim_by css_space name = name -> rtrim_by css_space name = name ->
  selectors (name ++ id) = [name ++ id].
Proof.
  intros Hc Hn Hl Hr. unfold selectors.
  rewrite split_on_free by (rewrite free_of_app, Hc, Hcomma; reflexivity).
  cbn [map]. now rewrite trim_named.
Qed.

Lemma eqb_host x y : String.eqb (host id ++ x) (host id ++ y) = String.eqb x y.
Proof. apply eqb_app. Qed.

Lemma eqb_host_named x name :
  String.eqb (host id ++ x) (String "@" name ++ id) = false.
Proof. unfold host. rewrite !app_assoc. reflexivity. Qed.

Lemma selectors_host_alone : selectors (host id) = [host id].
Proof.
  rewrite <- (app_nil_r (host id)).
  apply selectors_host; first [reflexivity | right; reflexivity].
Qed.

Lemma eqb_host_alone x : String.eqb (host id ++ x) (host id) = String.eqb x EmptyString.
Proof. rewrite <- (app_nil_r (host id)) at 2. apply eqb_app. Qed.

#[local] Arguments trim_by : simpl never.

Lemma trim_value (name : string) :
  name <> EmptyString ->
  ltrim_by css_space name = name -> rtrim_by css_space name = name ->
  trim_by css_space (String " " name ++ id ++ EmptyString) = name ++ id.
Proof.
  intros Hn Hl Hr. rewrite app_nil_r.
  change (String " " name ++ id) with (" " ++ name ++ id).
  rewrite css_trim_space by reflexivity. now apply trim_named.
Qed.

Lemma declarations_after_rule :
  declarations (w_body (after_rule id))
  = [("--glitch-anim-delay", "2s");
     ("--glitch-anim-name", "noise-anim-after-" ++ id);
     ("--glitch-clip", "rect(0, 900px, 0, 0)");
     ("--glitch-position", "0px");
     ("--glitch-shadow", "-1px 0 var(--glitch-shadow-color)");
     ("--glitch-shadow-color", "red")].
Proof.
  unfold after_rule, declarations. cbn [w_body].
  rewrite !split_on_glue, (split_on_free _ id Hsemi).
  simpl.
  rewrite trim_value by (first [reflexivity | discriminate]).
  reflexivity.
Qed.

Lemma declarations_before_rule :
  declarations (w_body (before_rule id))
  = [("--glitch-anim-delay", "3s");
     ("--glitch-anim-name", "noise-anim-before-" ++ id);
     ("--glitch-clip", "rect(0, 900px, 0, 0)");
     ("--glitch-position", "-2px");
     ("--glitch-shadow", "1px 0 var(--glitch-shadow-color)");
     ("--glitch-shadow-color", "blue")].
Proof.
  unfold before_rule, declarations. cbn [w_body].
  rewrite !split_on_glue, (split_on_free _ id Hsemi).
  simpl.
  rewrite trim_value by (first [reflexivity | discriminate]).
  reflexivity.
Qed.

End Host.

Lemma plain_no_structure (id : string) :
  plain id = true -> free_of ["{"; "}"; ","; ";"]%char id = true.
Proof. apply free_of_incl. every_char. Qed.

Lemma plain_no_space (id : string) :
  plain id = true -> forall_chars (fun c => negb (css_space c)) id = true.
Proof. apply forall_chars_impl. every_char. Qed.

Lemma plain_no_brace (id : string) :
  plain id = true -> free_of ["{"; "}"]%char id = true.
Proof. apply free_of_incl. every_char. Qed.

(** Every text made of the characters of a UUID is plain. *)
Lemma uuid_plain (id : string) : forall_chars uuid_char id = true -> plain id = true.
Proof. apply forall_chars_impl. every_char. Qed.

(** The rules inside the media block. *)
Lemma styles_guarded_rules (random : nat -> float) (id : string) (i : nat) :
  free_of ["{"; "}"]%char id = true ->
  guarded_rules (fst (styles random id i))
  = Some (map read_back
            (media_rules id
               (fst (generateNoiseAnimation random default_steps default_min default_max i))
               (fst (generateNoiseAnimation random default_steps default_min default_max
                       (i + 2 * (default_steps + 2)))))).
Proof.
  intros Hid. unfold guarded_rules.
  rewrite styles_text, styles_template_rules;
    [| exact Hid | apply generated_nesting | apply generated_nesting].
  cbn [fst snd]. rewrite String.eqb_refl.
  unfold media_block. cbn [w_body].
  apply css_rules_write_all; [reflexivity |].
  apply media_rules_well_written;
    [exact Hid | apply generated_nesting | apply generated_nesting].
Qed.

Section Copies.

Variable id : string.
Hypothesis Hid : free_of ["{"; "}"; ","; ";"]%char id = true.
Hypothesis Hsp : forall_chars (fun c => negb (css_space c)) id = true.

(** What the rules declare for a property of the [::after] copy: the value
    of its own rule, or else the value of the rule it shares with the
    [::before] copy. *)
Lemma declared_for_after (a b property : string) :
  declared_value (map read_back (media_rules id a b)) (host id ++ "::after") property
  = match declared_in (w_body (after_rule id)) property with
    | Some v => Some v
    | None => declared_in (w_body (copies_rule id)) property
    end.
Proof.
  rewrite (read_media_rules id Hsp). unfold declared_value.
  cbn [fold_left fst snd].
  rewrite (selectors_host_alone id Hid), (selectors_copies id Hid).
  rewrite !(selectors_host id Hid) by (first [reflexivity | left; reflexivity]).
  rewrite !(selectors_named id Hid Hsp) by (first [reflexivity | discriminate]).
  cbn [existsb].
  rewrite !eqb_host, !eqb_host_alone, !eqb_host_named.
  cbn [String.eqb Ascii.eqb Bool.eqb orb andb].
  destruct (declared_in (w_body (after_rule id)) property); [reflexivity |].
  now destruct (declared_in (w_body (copies_rule id)) property).
Qed.

Lemma declared_for_before (a b property : string) :
  declared_value (map read_back (media_rules id a b)) (host id ++ "::before") property
  = match declared_in (w_body (before_rule id)) property with
    | Some v => Some v
    | None => declared_in (w_body (copies_rule id)) property
    end.
Proof.
  rewrite (read_media_rules id Hsp). unfold declared_value.
  cbn [fold_left fst snd].
  rewrite (selectors_host_alone id Hid), (selectors_copies id Hid).
  rewrite !(selectors_host id Hid) by (first [reflexivity | left; reflexivity]).
  rewrite !(selectors_named id Hid Hsp) by (first [reflexivity | discriminate]).
  cbn [existsb].
  rewrite !eqb_host, !eqb_host_alone, !eqb_host_named.
  cbn [String.eqb Ascii.eqb Bool.eqb orb andb].
  destruct (declared_in (w_body (before_rule id)) property); [reflexivity |].
  now destruct (declared_in (w_body (copies_rule id)) property).
Qed.

End Copies.

Section Animations.

Variable id : string.
Hypothesis Huuid : forall_chars uuid_char id = true.

(** A name that ends in the identifier is one component value. *)
Lemma components_noise (which : string) :
  free_of ["009"; "010"; "012"; "013"; " "; "("; ")"]%char which = true ->
  which <> EmptyString ->
  components (which ++ id) = [which ++ id].
Proof.
  intros Hw Hne. apply components_atom.
  - now rewrite free_of_app, Hw, uuid_atom.
  - destruct which; [contradiction | discriminate].
Qed.

(** The name of an animation of the component is an identifier, and neither
    a time nor a keyword of the shorthand: it goes to the animation name. *)
Lemma assign_noise (which : string) :
  forall_chars name_char which = true ->
  assign no_animation ("noise-anim-" ++ which ++ id)
  = Some {| animation_name := Some ("noise-anim-" ++ which ++ id);
            animation_duration := None; animation_delay := None;
            animation_timing_function := None; animation_iteration_count := None;
            animation_direction := None; animation_fill_mode := None;
            animation_play_state := None |}.
Proof.
  intros Hw.
  assert (Hi : is_ident ("noise-anim-" ++ which ++ id) = true).
  { unfold is_ident. change ("noise-anim-" ++ which ++ id)
      with (String "n" ("oise-anim-" ++ which ++ id)).
    cbv beta iota.
    change (String "n" ("oise-anim-" ++ which ++ id)) with ("noise-anim-" ++ which ++ id).
    rewrite !forall_chars_app, Hw, (uuid_name id Huuid). reflexivity. }
  unfold assign. rewrite Hi. reflexivity.
Qed.

Lemma declared_animation : declared_in (w_body (copies_rule id)) "animation"
  = Some copies_animation.
Proof. vm_compute. reflexivity. Qed.

Lemma substitute_copies_animation (custom : string -> option string) (name time : string) :
  custom "--glitch-anim-name" = Some name ->
  custom "--glitch-anim-delay" = Some time ->
  custom "--glitch-anim-timing" = None ->
  custom "--glitch-anim-count" = None ->
  custom "--glitch-anim-dir" = None ->
  substitute custom (components copies_animation)
  = Some (components name ++ components time
          ++ ["linear"; "infinite"; "alternate-reverse"])%list.
Proof.
  intros Hn Ht H1 H2 H3.
  change (components copies_animation)
    with ["var(--glitch-anim-name)"; "var(--glitch-anim-delay)";
          "var(--glitch-anim-timing, linear)"; "var(--glitch-anim-count, infinite)";
          "var(--glitch-anim-dir, alternate-reverse)"].
  cbn [substitute].
  change (var_reference "var(--glitch-anim-dir, alternate-reverse)")
    with (Some ("--glitch-anim-dir", Some "alternate-reverse")).
  change (var_reference "var(--glitch-anim-count, infinite)")
    with (Some ("--glitch-anim-count", Some "infinite")).
  change (var_reference "var(--glitch-anim-timing, linear)")
    with (Some ("--glitch-anim-timing", Some "linear")).
  change (var_reference "var(--glitch-anim-delay)")
    with (Some ("--glitch-anim-delay", @None string)).
  change (var_reference "var(--glitch-anim-name)")
    with (Some ("--glitch-anim-name", @None string)).
  cbv beta iota. rewrite Hn, Ht, H1, H2, H3. reflexivity.
Qed.

Lemma own_after (property : string) :
  declared_in (w_body (after_rule id)) property
  = fold_left (fun acc d => if String.eqb (fst d) property then Some (snd d) else acc)
      [("--glitch-anim-delay", "2s");
       ("--glitch-anim-name", "noise-anim-after-" ++ id);
       ("--glitch-clip", "rect(0, 900px, 0, 0)");
       ("--glitch-position", "0px");
       ("--glitch-shadow", "-1px 0 var(--glitch-shadow-color)");
       ("--glitch-shadow-color", "red")] None.
Proof.
  pose proof (plain_no_structure id (uuid_plain id Huuid)) as Hid.
  pose proof (plain_no_space id (uuid_plain id Huuid)) as Hsp.
  unfold declared_in. now rewrite (declarations_after_rule id Hid Hsp).
Qed.

Lemma own_before (property : string) :
  declared_in (w_body (before_rule id)) property
  = fold_left (fun acc d => if String.eqb (fst d) property then Some (snd d) else acc)
      [("--glitch-anim-delay", "3s");
       ("--glitch-anim-name", "noise-anim-before-" ++ id);
       ("--glitch-clip", "rect(0, 900px, 0, 0)");
       ("--glitch-position", "-2px");
       ("--glitch-shadow", "1px 0 var(--glitch-shadow-color)");
       ("--glitch-shadow-color", "blue")] None.
Proof.
  pose proof (plain_no_structure id (uuid_plain id Huuid)) as Hid.
  pose proof (plain_no_space id (uuid_plain id Huuid)) as Hsp.
  unfold declared_in. now rewrite (declarations_before_rule id Hid Hsp).
Qed.

(** The animation of the [::after] copy: what its shorthand resolves to
    with the custom properties the stylesheet declares for the copy. *)
Lemma animation_of_after (a b : string) :
  animation_of (map read_back (media_rules id a b)) (host id ++ "::after")
  = Some {| animation_name := Some ("noise-anim-after-" ++ id);
            animation_duration := Some "2s";
            animation_delay := None;
            animation_timing_function := Some "linear";
            animation_iteration_count := Some "infinite";
            animation_direction := Some "alternate-reverse";
            animation_fill_mode := None;
            animation_play_state := None |}.
Proof.
  pose proof (plain_no_structure id (uuid_plain id Huuid)) as Hid.
  pose proof (plain_no_space id (uuid_plain id Huuid)) as Hsp.
  unfold animation_of.
  rewrite (declared_for_after id Hid Hsp), own_after.
  cbn [fold_left fst snd]. change (String.eqb _ "animation") with false. cbv iota.
  rewrite declared_animation.
  rewrite (substitute_copies_animation _ ("noise-anim-after-" ++ id) "2s");
    try (rewrite (declared_for_after id Hid Hsp), own_after; reflexivity).
  rewrite (components_noise "noise-anim-after-") by (first [reflexivity | discriminate]).
  change (components "2s") with ["2s"].
  cbn [List.app single_animation fold_left].
  change (assign no_animation ("noise-anim-after-" ++ id))
    with (assign no_animation ("noise-anim-" ++ "after-" ++ id)).
  rewrite (assign_noise "after-") by reflexivity.
  reflexivity.
Qed.

Lemma animation_of_before (a b : string) :
  animation_of (map read_back (media_rules id a b)) (host id ++ "::before")
  = Some {| animation_name := Some ("noise-anim-before-" ++ id);
            animation_duration := Some "3s";
            animation_delay := None;
            animation_timing_function := Some "linear";
            animation_iteration_count := Some "infinite";
            animation_direction := Some "alternate-reverse";
            animation_fill_mode := None;
            animation_play_state := None |}.
Proof.
  pose proof (plain_no_structure id (uuid_plain id Huuid)) as Hid.
  pose proof (plain_no_space id (uuid_plain id Huuid)) as Hsp.
  unfold animation_of.
  rewrite (declared_for_before id Hid Hsp), own_before.
  cbn [fold_left fst snd]. change (String.eqb _ "animation") with false. cbv iota.
  rewrite declared_animation.
  rewrite (substitute_copies_animation _ ("noise-anim-before-" ++ id) "3s");
    try (rewrite (declared_for_before id Hid Hsp), own_before; reflexivity).
  rewrite (components_noise "noise-anim-before-") by (first [reflexivity | discriminate]).
  change (components "3s") with ["3s"].
  cbn [List.app single_animation fold_left].
  change (assign no_animation ("noise-anim-before-" ++ id))
    with (assign no_animation ("noise-anim-" ++ "before-" ++ id)).
  rewrite (assign_noise "before-") by reflexivity.
  reflexivity.
Qed.

End Animations.

(** C5, as stated, fails twice.  The values are the other way round, 3s
    for the [::before] copy and 2s for the [::after] copy; and they are no
    delays: [--glitch-anim-delay] is the first time of the [animation]
    shorthand, which is the duration.  No delay is set for either copy. *)
Lemma copies_run_for_3s_and_2s_without_delay :
  let id := "36b8f84d-df4e-4d49-b662-bcde71a8764f" in
  exists (rs : list rule) (after before : animation),
    guarded_rules (fst (styles (fun _ => 0.5%float) id 0)) = Some rs
    /\ animation_of rs (host id ++ "::before") = Some before
    /\ animation_of rs (host id ++ "::after") = Some after
    /\ animation_delay before = None
    /\ animation_delay after = None
    /\ animation_duration before = Some "3s"
    /\ animation_duration after = Some "2s"
    /\ ~ (animation_delay before = Some "2s" /\ animation_delay after = Some "3s").
Proof.
  cbv zeta. eexists _, _, _.
  split; [vm_compute; reflexivity |].
  split; [vm_compute; reflexivity |].
  split; [vm_compute; reflexivity |].
  cbn [animation_delay animation_duration].
  repeat (split; [reflexivity |]).
  intros [H _]. discriminate H.
Qed.

(** C5, amended: for every identifier made of the characters of a UUID, the
    [::after] copy declares [--glitch-anim-delay: 2s] and the [::before] copy
    [--glitch-anim-delay: 3s]; the [animation] shorthand of the copies takes
    this value as its first and only time, so it is the duration of the
    animation (2s and 3s), and no delay is set, neither by the shorthand nor
    by an [animation-delay] declaration.  The two copies run distinct
    animations named after the identifier, [noise-anim-after-<id>] and
    [noise-anim-before-<id>].  The custom properties are those the
    stylesheet itself declares. *)
Theorem copies_durations_and_animation_names
  (random : nat -> float) (id : string) (i : nat) :
  forall_chars uuid_char id = true ->
  exists (rs : list rule) (after before : animation),
    guarded_rules (fst (styles random id i)) = Some rs
    /\ declared_value rs (host id ++ "::after") "--glitch-anim-delay" = Some "2s"
    /\ declared_value rs (host id ++ "::before") "--glitch-anim-delay" = Some "3s"
    /\ animation_of rs (host id ++ "::after") = Some after
    /\ animation_of rs (host id ++ "::before") = Some before
    /\ animation_duration after = Some "2s"
    /\ animation_duration before = Some "3s"
    /\ animation_delay after = None
    /\ animation_delay before = None
    /\ declared_value rs (host id ++ "::after") "animation-delay" = None
    /\ declared_value rs (host id ++ "::before") "animation-delay" = None
    /\ animation_name after = Some ("noise-anim-after-" ++ id)
    /\ animation_name before = Some ("noise-anim-before-" ++ id)
    /\ animation_name after <> animation_name before.
Proof.
  intros Huuid.
  pose proof (uuid_plain id Huuid) as Hplain.
  pose proof (plain_no_structure id Hplain) as Hid.
  pose proof (plain_no_space id Hplain) as Hsp.
  eexists _, _, _.
  split; [apply styles_guarded_rules, plain_no_brace, Hplain |].
  rewrite (animation_of_after id Huuid), (animation_of_before id Huuid).
  rewrite !(declared_for_after id Hid Hsp), !(declared_for_before id Hid Hsp).
  rewrite !(own_after id Huuid), !(own_before id Huuid).
  cbn [animation_duration animation_delay animation_name].
  repeat (split; [reflexivity |]).
  intros E.
  assert (H : "noise-anim-after-" ++ id <> "noise-anim-before-" ++ id)
    by (apply String.eqb_neq; reflexivity).
  apply H.
  exact (f_equal (fun o => match o with Some s => s | None => EmptyString end) E).
Qed.

Lemma copies_durations_and_animation_names_witness :
  let id := "36b8f84d-df4e-4d49-b662-bcde71a8764f" in
  forall_chars uuid_char id = true
  /\ exists (rs : list rule) (after before : animation),
       guarded_rules (fst (styles (fun _ => 0.5%float) id 0)) = Some rs
       /\ declared_value rs (host id ++ "::after") "--glitch-anim-delay" = Some "2s"
       /\ declared_value rs (host id ++ "::before") "--glitch-anim-delay" = Some "3s"
       /\ animation_of rs (host id ++ "::after") = Some after
       /\ animation_of rs (host id ++ "::before") = Some before
       /\ animation_duration after = Some "2s"
       /\ animation_duration before = Some "3s"
       /\ animation_delay after = None
       /\ animation_delay before = None
       /\ declared_value rs (host id ++ "::after") "animation-delay" = None
       /\ declared_value rs (host id ++ "::before") "animation-delay" = None
       /\ animation_name after = Some ("noise-anim-after-" ++ id)
       /\ animation_name before = Some ("noise-anim-before-" ++ id)
       /\ animation_name after <> animation_name before.
Proof.
  cbv zeta. split; [reflexivity |].
  apply (copies_durations_and_animation_names (fun _ => 0.5%float)
           "36b8f84d-df4e-4d49-b662-bcde71a8764f" 0).
  reflexivity.
Defined.

(** As the reader takes it apart, the stylesheet text is one block, the
    media block, whenever the identifier holds no brace. *)
Lemma styles_one_block (random : nat -> float) (id : string) (i : nat) :
  free_of ["{"; "}"]%char id = true ->
  guarded_by_media (fst (styles random id i)) = true.
Proof.
  intros Hid. unfold guarded_by_media.
  rewrite styles_text, styles_template_rules;
    [reflexivity | exact Hid | apply generated_nesting | apply generated_nesting].
Qed.



End Stylesheet.

(** ** The life of an element *)

Module Lifecycle.

Import StrFacts.

#[local] Open Scope nat_scope.

(** The generated text plays no part here. *)
#[local] Opaque styles generateNoiseAnimation createRandomNumber.

Section Element.
Variable env : platform.

Lemma same_element_refl w : same_element w w.
Proof. repeat split. Qed.

Lemma run_random_same {A} (m : Rand A) w : same_element w (snd (run_random m w)).
Proof. unfold run_random. destruct (m (random_calls w)). repeat split. Qed.

Lemma get_styles_same w : same_element w (snd (get_styles env w)).
Proof. unfold get_styles. apply run_random_same. Qed.

Lemma adoptStyles_supported w :
  replaceSync_in_prototype env = true ->
  adoptStyles env w
  = Normal (adoptedStyleSheets_push {| cssText := fst (get_styles env w) |}
              (snd (get_styles env w))).
Proof.
  intros H. unfold adoptStyles, replaceSync. rewrite H. simpl.
  now destruct (get_styles env w).
Qed.

Lemma adoptStyles_unsupported w :
  replaceSync_in_prototype env = false -> adoptStyles env w = Normal w.
Proof. intros H. unfold adoptStyles. now rewrite H. Qed.

Lemma adoptStyles_same w :
  exists w', adoptStyles env w = Normal w' /\ same_element w w'.
Proof.
  destruct (replaceSync_in_prototype env) eqn:E.
  - rewrite (adoptStyles_supported _ E). eexists. split; [reflexivity |].
    destruct (get_styles_same w) as (H1 & H2 & H3 & H4 & H5).
    repeat split; assumption.
  - rewrite (adoptStyles_unsupported _ E). eexists. split; [reflexivity |].
    apply same_element_refl.
Qed.

Lemma dataset_text_set_uuid v w : dataset_text (set_uuid v w) = dataset_text w.
Proof.
  unfold dataset_text, set_uuid, with_attribute. cbn [attributes].
  now rewrite lookup_insert_ne.
Qed.

Lemma set_glitchText_field v w : priv_glitchText (set_glitchText v w) = v.
Proof.
  unfold set_glitchText, dataset_text. cbn [attributes].
  destruct (attributes w !! "data-text") as [t|]; [destruct (String.eqb t v) |];
    reflexivity.
Qed.

Lemma set_glitchText_mirror v w : dataset_text (set_glitchText v w) = Some v.
Proof.
  unfold set_glitchText, dataset_text. cbn [attributes].
  destruct (attributes w !! "data-text") as [t|] eqn:E.
  - destruct (String.eqb t v) eqn:Et; cbn [attributes with_attribute priv_glitchText].
    + apply String.eqb_eq in Et. now subst.
    + now rewrite lookup_insert_eq.
  - cbn [attributes with_attribute priv_glitchText]. now rewrite lookup_insert_eq.
Qed.

Lemma set_glitchText_uuid_attribute v w :
  attributes (set_glitchText v w) !! "uuid" = attributes w !! "uuid".
Proof.
  unfold set_glitchText, dataset_text. cbn [attributes].
  destruct (attributes w !! "data-text") as [t|]; [destruct (String.eqb t v) |];
    cbn [attributes with_attribute]; try reflexivity;
    now rewrite lookup_insert_ne.
Qed.

Lemma set_glitchText_rest v w :
  priv_uuid (set_glitchText v w) = priv_uuid w
  /\ innerText (set_glitchText v w) = innerText w
  /\ adoptedStyleSheets (set_glitchText v w) = adoptedStyleSheets w
  /\ random_calls (set_glitchText v w) = random_calls w
  /\ uuid_calls (set_glitchText v w) = uuid_calls w.
Proof.
  unfold set_glitchText, dataset_text. cbn [attributes].
  destruct (attributes w !! "data-text") as [t|]; [destruct (String.eqb t v) |];
    repeat split.
Qed.

(** Attachment always completes: it assigns the next UUID, resolves the
    display text from the attribute or else from the trimmed rendered text,
    and mirrors both. *)
Lemma connectedCallback_result w :
  exists w',
    connectedCallback env w = Normal w'
    /\ glitchText w' = or_else (dataset_text w) (trim (innerText w))
    /\ dataset_text w' = Some (glitchText w')
    /\ uuid w' = randomUUID_stream env (uuid_calls w)
    /\ attributes w' !! "uuid" = Some (uuid w')
    /\ uuid_calls w' = S (uuid_calls w).
Proof.
  unfold connectedCallback, crypto_randomUUID.
  set (id := randomUUID_stream env (uuid_calls w)).
  set (w1 := Build_state _ _ _ _ _ _ (S (uuid_calls w))).
  set (v := or_else (dataset_text (set_uuid id w1)) (trim (innerText (set_uuid id w1)))).
  destruct (adoptStyles_same (set_glitchText v (set_uuid id w1)))
    as (w' & Hw & Hu & Hg & Ha & _ & Hc).
  destruct (set_glitchText_rest v (set_uuid id w1)) as (Hu' & _ & _ & _ & Hc').
  exists w'. split; [exact Hw |].
  assert (Hv : v = or_else (dataset_text w) (trim (innerText w))).
  { unfold v. now rewrite dataset_text_set_uuid. }
  assert (Hd : dataset_text w' = dataset_text (set_glitchText v (set_uuid id w1))).
  { unfold dataset_text. now rewrite Ha. }
  unfold glitchText, uuid. rewrite Hd, Hg, Ha, Hu, Hc, Hu', Hc'.
  rewrite set_glitchText_field, set_glitchText_mirror, set_glitchText_uuid_attribute.
  repeat split; [exact Hv |].
  unfold set_uuid, with_attribute. cbn [attributes priv_uuid].
  now rewrite lookup_insert_eq.
Qed.

(** An operation other than an attachment and the [uuid] setter completes and
    keeps the identifier and its attribute. *)
Lemma same_element_identifier w w' :
  same_element w w' ->
  uuid w' = uuid w /\ attributes w' !! "uuid" = attributes w !! "uuid".
Proof.
  intros (Hu & _ & Ha & _). unfold uuid. rewrite Hu, Ha. split; reflexivity.
Qed.

Lemma perform_keeps_identifier op w :
  keeps_identifier op = true ->
  exists w',
    perform env op w = Normal w'
    /\ uuid w' = uuid w
    /\ attributes w' !! "uuid" = attributes w !! "uuid".
Proof.
  destruct op as [| v | v | | | steps min max | min max]; try discriminate; intros _;
    cbn [perform].
  - eexists. split; [reflexivity |].
    destruct (set_glitchText_rest v w) as (Hu & _).
    split; [exact Hu | apply set_glitchText_uuid_attribute].
  - eexists. split; [reflexivity |].
    exact (same_element_identifier _ _ (get_styles_same w)).
  - destruct (adoptStyles_same w) as (w' & Hw & Hs).
    exists w'. split; [exact Hw |].
    exact (same_element_identifier _ _ Hs).
  - eexists. split; [reflexivity |].
    exact (same_element_identifier _ _ (run_random_same _ w)).
  - eexists. split; [reflexivity |].
    exact (same_element_identifier _ _ (run_random_same _ w)).
Qed.

Lemma perform_all_keeps_identifier ops :
  forall w,
  forallb keeps_identifier ops = true ->
  exists w',
    perform_all env ops w = Normal w'
    /\ uuid w' = uuid w
    /\ attributes w' !! "uuid" = attributes w !! "uuid".
Proof.
  induction ops as [|op ops IH]; intros w; cbn [forallb perform_all].
  - intros _. now exists w.
  - rewrite andb_true_iff. intros [Hop Hops].
    destruct (perform_keeps_identifier op w Hop) as (w1 & H1 & Hu1 & Ha1).
    destruct (IH w1 Hops) as (w2 & H2 & Hu2 & Ha2).
    exists w2. rewrite H1. split; [exact H2 |].
    now rewrite Hu2, Ha2.
Qed.

End Element.

(** C3: publishing is gated by the capability.  With [replaceSync] in the
    prototype, [adoptStyles] completes, loads the generated style text into a
    new stylesheet and appends exactly that one stylesheet to the document's
    adopted list; without it, [adoptStyles] completes without throwing and
    changes nothing. *)
Theorem adoptStyles_gated_by_capability (env : platform) (w : state) :
  (replaceSync_in_prototype env = true ->
   exists w',
     adoptStyles env w = Normal w'
     /\ adoptedStyleSheets w'
        = (adoptedStyleSheets w
           ++ [{| cssText :=
                    fst (styles (Math_random_stream env) (uuid w) (random_calls w)) |}])%list
     /\ length (adoptedStyleSheets w') = S (length (adoptedStyleSheets w)))
  /\ (replaceSync_in_prototype env = false -> adoptStyles env w = Normal w).
Proof.
  split; intros H.
  - rewrite (adoptStyles_supported env w H). eexists. split; [reflexivity |].
    unfold get_styles, run_random, adoptedStyleSheets_push.
    destruct (styles (Math_random_stream env) (uuid w) (random_calls w)) as [text n].
    cbn [fst snd adoptedStyleSheets]. split; [reflexivity |].
    rewrite length_app. cbn [length]. lia.
  - apply adoptStyles_unsupported, H.
Qed.

(** C6: attached with the text attribute "Hello", the element resolves the
    display text "Hello" and mirrors "Hello" in the attribute; attached with
    no text attribute and the rendered text "World", it resolves the display
    text "World". *)
Theorem attachment_resolves_display_text (env : platform) (w : state) :
  (dataset_text w = Some "Hello" ->
   exists w',
     connectedCallback env w = Normal w'
     /\ glitchText w' = "Hello" /\ dataset_text w' = Some "Hello")
  /\ (dataset_text w = None -> innerText w = "World" ->
      exists w',
        connectedCallback env w = Normal w'
        /\ glitchText w' = "World" /\ dataset_text w' = Some "World").
Proof.
  destruct (connectedCallback_result env w) as (w' & Hw & Hg & Hd & _).
  split.
  - intros Ha. exists w'. rewrite Ha in Hg. cbn [or_else] in Hg.
    rewrite Hd, Hg. auto.
  - intros Ha Ht. exists w'. rewrite Ha, Ht in Hg. cbn [or_else] in Hg.
    change (trim "World") with "World" in Hg.
    rewrite Hd, Hg. auto.
Qed.

(** C10: attached with an empty text attribute, as with none, the element
    falls back to its rendered text: the display text, and the attribute that
    mirrors it, are the rendered text without the white space at its two
    ends. *)
Theorem empty_text_attribute_falls_back (env : platform) (w : state) :
  dataset_text w = Some EmptyString \/ dataset_text w = None ->
  exists w',
    connectedCallback env w = Normal w'
    /\ glitchText w' = trim (innerText w)
    /\ dataset_text w' = Some (trim (innerText w))
    /\ (exists l r,
          innerText w = l ++ trim (innerText w) ++ r
          /\ forall_chars js_space l = true /\ forall_chars js_space r = true)
    /\ starts_with js_space (trim (innerText w)) = false
    /\ ends_with js_space (trim (innerText w)) = false.
Proof.
  intros Ha.
  destruct (connectedCallback_result env w) as (w' & Hw & Hg & Hd & _).
  assert (Hg' : glitchText w' = trim (innerText w)).
  { rewrite Hg. now destruct Ha as [-> | ->]. }
  exists w'. rewrite Hd, Hg'.
  destruct (trim_by_spec js_space (innerText w)) as (H1 & H2 & H3).
  repeat split; assumption.
Qed.

Lemma empty_text_attribute_falls_back_witness :
  let env := example_platform false in
  let w := fresh_element (<["data-text" := EmptyString]> ∅) "  World
 " in
  (dataset_text w = Some EmptyString \/ dataset_text w = None)
  /\ exists w',
       connectedCallback env w = Normal w'
       /\ glitchText w' = trim (innerText w)
       /\ dataset_text w' = Some (trim (innerText w))
       /\ (exists l r,
             innerText w = l ++ trim (innerText w) ++ r
             /\ forall_chars js_space l = true /\ forall_chars js_space r = true)
       /\ starts_with js_space (trim (innerText w)) = false
       /\ ends_with js_space (trim (innerText w)) = false.
Proof.
  cbv zeta.
  assert (H : dataset_text (fresh_element (<["data-text" := EmptyString]> ∅) "  World
 ") = Some EmptyString) by reflexivity.
  split; [left; exact H |].
  apply (empty_text_attribute_falls_back (example_platform false)
           (fresh_element (<["data-text" := EmptyString]> ∅) "  World
 ")).
  left. exact H.
Defined.

(** C9, as stated, fails: attaching the element again assigns the next UUID
    to the field and to the attribute. *)
Lemma reattachment_assigns_a_new_identifier :
  let env := example_platform true in
  exists w1 w2,
    connectedCallback env (fresh_element ∅ "World") = Normal w1
    /\ perform_all env [Attach] w1 = Normal w2
    /\ uuid w1 = "36b8f84d-df4e-4d49-b662-bcde71a8764f"
    /\ attributes w1 !! "uuid" = Some "36b8f84d-df4e-4d49-b662-bcde71a8764f"
    /\ uuid w2 = "0f8fad5b-d9cb-469f-a165-70867728950e"
    /\ attributes w2 !! "uuid" = Some "0f8fad5b-d9cb-469f-a165-70867728950e"
    /\ uuid w2 <> uuid w1.
Proof.
  cbv zeta.
  destruct (connectedCallback_result (example_platform true) (fresh_element ∅ "World"))
    as (w1 & Hw1 & _ & _ & Hu1 & Ha1 & Hc1).
  destruct (connectedCallback_result (example_platform true) w1)
    as (w2 & Hw2 & _ & _ & Hu2 & Ha2 & _).
  exists w1, w2. cbn [perform_all perform]. rewrite Hw2.
  rewrite Hc1 in Hu2. cbn in Hu1, Hu2.
  rewrite Ha1, Ha2, Hu1, Hu2.
  repeat split; try reflexivity; try assumption. discriminate.
Qed.

(** C9, amended: every attachment assigns the identifier anew, the next
    UUID of the platform, to the field and to the [uuid] attribute; between
    attachments, whatever else is done with the element short of calling the
    [uuid] setter leaves the field and the attribute unchanged. *)
Theorem identifier_assigned_on_attachment_and_kept_between
  (env : platform) (w : state) (ops : list operation) :
  forallb keeps_identifier ops = true ->
  (exists w1,
     connectedCallback env w = Normal w1
     /\ uuid w1 = randomUUID_stream env (uuid_calls w)
     /\ attributes w1 !! "uuid" = Some (uuid w1))
  /\ (exists w2,
        perform_all env ops w = Normal w2
        /\ uuid w2 = uuid w
        /\ attributes w2 !! "uuid" = attributes w !! "uuid").
Proof.
  intros Hops. split.
  - destruct (connectedCallback_result env w) as (w1 & Hw1 & _ & _ & Hu & Ha & _).
    now exists w1.
  - now apply perform_all_keeps_identifier.
Qed.

Lemma identifier_assigned_on_attachment_and_kept_between_witness :
  let env := example_platform true in
  let w := fresh_element ∅ "World" in
  let ops := [SetGlitchText "Hello"; AdoptStyles; GetStyles;
              GenerateNoiseAnimation 20 1 100; CreateRandomNumber 1 100] in
  forallb keeps_identifier ops = true
  /\ (exists w1,
        connectedCallback env w = Normal w1
        /\ uuid w1 = randomUUID_stream env (uuid_calls w)
        /\ attributes w1 !! "uuid" = Some (uuid w1))
  /\ (exists w2,
        perform_all env ops w = Normal w2
        /\ uuid w2 = uuid w
        /\ attributes w2 !! "uuid" = attributes w !! "uuid").
Proof.
  cbv zeta. split; [reflexivity |].
  apply (identifier_assigned_on_attachment_and_kept_between (example_platform true)
           (fresh_element ∅ "World")
           [SetGlitchText "Hello"; AdoptStyles; GetStyles;
            GenerateNoiseAnimation 20 1 100; CreateRandomNumber 1 100]).
  reflexivity.
Defined.

End Lifecycle.

(** ** More on what is generated *)

Module Generation.

Import StrFacts NumberFacts CSSFacts GeneratorFacts Keyframes Stylesheet.

#[local] Open Scope nat_scope.

(** Reading rules that stand between white space. *)
Lemma css_rules_padded (lead trail : string) (l : list written) :
  forall_chars css_space lead = true ->
  forall_chars css_space trail = true ->
  forallb well_written l = true ->
  css_rules (lead ++ write_all l ++ trail) = Some (map read_back l).
Proof.
  intros Hlead Htrail Hl. unfold css_rules.
  rewrite scan_app. unfold start.
  rewrite (scan_prelude _ _ _ (space_free_of_braces _ Hlead)).
  change (EmptyString ++ lead) with lead.
  rewrite scan_app.
  destruct (scan_write_all l lead [] Hlead Hl) as (sp' & H1 & H2).
  rewrite H2, (scan_prelude _ _ _ (space_free_of_braces _ Htrail)).
  cbn [depth prelude rules Nat.eqb andb List.app].
  now rewrite forall_chars_app, H1, Htrail.
Qed.

(** X1: [generateNoiseAnimation(steps, min, max)] calls [Math.random]
    exactly [2 * (steps + 2)] times, and its text depends on the values of
    those calls only: two sources of randomness that agree on them give the
    same text. *)
Theorem generateNoiseAnimation_reads_its_own_draws
  (random random' : nat -> float) (steps : nat) (min max : float) (i : nat) :
  (forall k, i <= k < i + 2 * (steps + 2) -> random k = random' k) ->
  generateNoiseAnimation random steps min max i
  = generateNoiseAnimation random' steps min max i
  /\ snd (generateNoiseAnimation random steps min max i) = i + 2 * (steps + 2).
Proof.
  intros H. rewrite !generateNoiseAnimation_text. split; [| reflexivity].
  f_equal. f_equal. apply map_ext_in. intros x Hx. apply in_seq in Hx.
  unfold keyframe_at, keyframe, createRandomNumber, Math_random, mbind, mret,
    Rand_bind, Rand_ret.
  cbn [fst].
  rewrite (H (i + 2 * x)) by lia. rewrite (H (S (i + 2 * x))) by lia.
  reflexivity.
Qed.


Lemma generateNoiseAnimation_reads_its_own_draws_witness :
  let random := fun _ : nat => 0.5%float in
  let random' := fun k : nat => if k <? 6 then 0.5%float else 0.25%float in
  (forall k, 0 <= k < 0 + 2 * (1 + 2) -> random k = random' k)
  /\ generateNoiseAnimation random 1 1 100 0 = generateNoiseAnimation random' 1 1 100 0
  /\ snd (generateNoiseAnimation random 1 1 100 0) = 0 + 2 * (1 + 2).
Proof.
  cbv zeta.
  assert (H : forall k, 0 <= k < 0 + 2 * (1 + 2) ->
              0.5%float = (if k <? 6 then 0.5%float else 0.25%float)).
  { intros k Hk. destruct (Nat.ltb_spec k 6); [reflexivity | lia]. }
  split; [exact H |].
  exact (generateNoiseAnimation_reads_its_own_draws
           (fun _ => 0.5%float) (fun k => if k <? 6 then 0.5%float else 0.25%float)
           1 1 100 0 H).
Defined.

(** X3: with the default 20 steps, whatever [min], [max] and the random
    values, the 22 keyframes are written at these positions: the last one
    lies at 105%, past the end of the timeline, and five of them carry the
    rounding error of [x * (1 / 20) * 100]. *)
Theorem default_positions_run_past_the_end
  (random : nat -> float) (min max : float) (i : nat) :
  exists entries : list rule,
    css_rules (fst (generateNoiseAnimation random default_steps min max i)) = Some entries
    /\ map fst entries
       = ["0%"; "5%"; "10%"; "15.000000000000002%"; "20%"; "25%";
          "30.000000000000004%"; "35%"; "40%"; "45%"; "50%";
          "55.00000000000001%"; "60.00000000000001%"; "65%"; "70%"; "75%";
          "80%"; "85.00000000000001%"; "90%"; "95%"; "100%"; "105%"].
Proof.
  eexists. split; [apply generated_rules |].
  rewrite map_map. vm_compute. reflexivity.
Qed.

(** X4: zero steps are not guarded: [generateNoiseAnimation(0, min, max)]
    divides by zero and emits two keyframes, at [NaN%] and at [Infinity%]. *)
Theorem zero_steps_divide_by_zero
  (random : nat -> float) (min max : float) (i : nat) :
  exists entries : list rule,
    css_rules (fst (generateNoiseAnimation random 0 min max i)) = Some entries
    /\ map fst entries = ["NaN%"; "Infinity%"].
Proof.
  eexists. split; [apply generated_rules |].
  rewrite map_map. vm_compute. reflexivity.
Qed.


(** The text between the braces of a [@keyframes] rule reads as the
    keyframes that were generated for it. *)
Lemma keyframes_body_rules (random : nat -> float) steps min max i :
  css_rules ("
          " ++ fst (generateNoiseAnimation random steps min max i) ++ "
        ")
  = Some (map (entry random steps min max i) (seq 0 (steps + 2))).
Proof.
  rewrite generateNoiseAnimation_written.
  rewrite css_rules_padded by
    (first [reflexivity | apply keyframes_well_written]).
  rewrite map_map. f_equal. apply map_ext. intros x. apply keyframe_read_back.
Qed.

Lemma styles_calls (random : nat -> float) (id : string) (i : nat) :
  snd (styles random id i) = i + 88.
Proof.
  unfold styles, mbind, Rand_bind, mret, Rand_ret.
  rewrite (generateNoiseAnimation_text random default_steps default_min default_max i).
  cbv beta iota.
  rewrite (generateNoiseAnimation_text random default_steps default_min default_max).
  cbn [snd]. unfold default_steps. lia.
Qed.

(** X2: for an identifier made of the characters of a UUID, the [styles]
    getter calls [Math.random] 88
    times, and the two [@keyframes] rules it writes, named after the
    identifier, each hold 22 keyframes: those of [noise-anim-after-<id>] are
    generated from the first 44 calls, those of [noise-anim-before-<id>] from
    the next 44, so the two animations never share a random value. *)
Theorem styles_keyframes_draw_apart (random : nat -> float) (id : string) (i : nat) :
  forall_chars uuid_char id = true ->
  snd (styles random id i) = i + 88
  /\ exists (rs : list rule) (after before : string),
       guarded_rules (fst (styles random id i)) = Some rs
       /\ In ("@keyframes noise-anim-after-" ++ id, after) rs
       /\ In ("@keyframes noise-anim-before-" ++ id, before) rs
       /\ css_rules after
          = Some (map (entry random default_steps default_min default_max i) (seq 0 22))
       /\ css_rules before
          = Some (map (entry random default_steps default_min default_max (i + 44))
                    (seq 0 22)).
Proof.
  intros Huuid. pose proof (uuid_plain id Huuid) as Hid.
  split; [apply styles_calls |].
  eexists _, _, _. split.
  - rewrite (styles_guarded_rules random id i (plain_no_brace id Hid)).
    rewrite (read_media_rules id (plain_no_space id Hid)).
    reflexivity.
  - split; [right; right; right; right; left; reflexivity |].
    split; [right; right; right; right; right; left; reflexivity |].
    unfold after_keyframes, before_keyframes. cbn [w_body].
    split; [apply keyframes_body_rules |].
    change (i + 2 * (default_steps + 2)) with (i + 2 * 22).
    replace (i + 2 * 22) with (i + 44) by lia.
    apply keyframes_body_rules.
Qed.

Lemma styles_keyframes_draw_apart_witness :
  let random := fun _ : nat => 0.5%float in
  let id := "36b8f84d-df4e-4d49-b662-bcde71a8764f" in
  forall_chars uuid_char id = true
  /\ snd (styles random id 0) = 0 + 88
  /\ exists (rs : list rule) (after before : string),
       guarded_rules (fst (styles random id 0)) = Some rs
       /\ In ("@keyframes noise-anim-after-" ++ id, after) rs
       /\ In ("@keyframes noise-anim-before-" ++ id, before) rs
       /\ css_rules after
          = Some (map (entry random default_steps default_min default_max 0) (seq 0 22))
       /\ css_rules before
          = Some (map (entry random default_steps default_min default_max (0 + 44))
                    (seq 0 22)).
Proof.
  cbv zeta. split; [reflexivity |].
  apply (styles_keyframes_draw_apart (fun _ => 0.5%float) "36b8f84d-df4e-4d49-b662-bcde71a8764f" 0).
  reflexivity.
Defined.

End Generation.

(** ** The cascade inside the media block *)

Module Cascade.

Import StrFacts NumberFacts CSSFacts GeneratorFacts Stylesheet.

#[local] Open Scope nat_scope.



Section Separator.

#[local] Arguments String.append !s1 s2 : simpl nomatch.

(** Two texts that go up to the same separator and differ. *)
Lemma eqb_before_separator (c : ascii) (a b x y : string) :
  free_of [c] a = true -> free_of [c] b = true -> a <> b ->
  String.eqb (a ++ String c x) (b ++ String c y) = false.
Proof.
  revert b. induction a as [|u a IH]; intros b Ha Hb Hne.
  - destruct b as [|v b]; [contradiction |].
    rewrite free_of_one_cons, andb_true_iff, negb_true_iff in Hb.
    destruct Hb as [Hv _]. simpl.
    rewrite Ascii.eqb_sym, Hv. reflexivity.
  - rewrite free_of_one_cons, andb_true_iff, negb_true_iff in Ha.
    destruct Ha as [Hu Ha].
    destruct b as [|v b]; simpl.
    + now rewrite Hu.
    + rewrite free_of_one_cons, andb_true_iff in Hb. destruct Hb as [_ Hb].
      destruct (Ascii.eqb u v) eqn:E; [| reflexivity].
      apply Ascii.eqb_eq in E. subst v.
      apply IH; [assumption | assumption | congruence].
Qed.

End Separator.

Lemma uuid_no_quote (id : string) :
  forall_chars uuid_char id = true -> free_of ["034"]%char id = true.
Proof. apply forall_chars_impl. every_char. Qed.

Section Strangers.

(** Two different identifiers made of the characters of a UUID. *)
Variables id other : string.
Hypothesis Hid : forall_chars uuid_char id = true.
Hypothesis Hother : forall_chars uuid_char other = true.
Hypothesis Hne : id <> other.

Lemma eqb_host_other x y : String.eqb (host other ++ x) (host id ++ y) = false.
Proof.
  unfold host, dq. rewrite !app_assoc, eqb_app.
  change (String "034" EmptyString ++ other ++ String "034" EmptyString ++ "]" ++ x)
    with (String "034" (other ++ String "034" ("]" ++ x))).
  change (String "034" EmptyString ++ id ++ String "034" EmptyString ++ "]" ++ y)
    with (String "034" (id ++ String "034" ("]" ++ y))).
  cbn [String.eqb]. change (Ascii.eqb "034" "034") with true. cbv iota.
  apply eqb_before_separator; try (now apply uuid_no_quote). congruence.
Qed.

Lemma eqb_host_other_alone x : String.eqb (host other ++ x) (host id) = false.
Proof. rewrite <- (app_nil_r (host id)). apply eqb_host_other. Qed.

Lemma eqb_host_at x name s : String.eqb (host other ++ x) (String "@" name ++ s) = false.
Proof. unfold host. rewrite !app_assoc. reflexivity. Qed.

(** The rules written for one identifier declare nothing for the copies of
    an element with another. *)
Lemma declared_for_stranger (a b pseudo property : string) :
  declared_value (map read_back (media_rules id a b)) (host other ++ pseudo) property
  = None.
Proof.
  pose proof (plain_no_structure id (uuid_plain id Hid)) as H1.
  pose proof (plain_no_space id (uuid_plain id Hid)) as H2.
  rewrite (read_media_rules id H2). unfold declared_value.
  cbn [fold_left fst snd].
  rewrite (selectors_host_alone id H1), (selectors_copies id H1).
  rewrite !(selectors_host id H1) by (first [reflexivity | left; reflexivity]).
  rewrite !(selectors_named id H1 H2) by (first [reflexivity | discriminate]).
  cbn [existsb].
  rewrite !eqb_host_other, !eqb_host_other_alone, !eqb_host_at.
  reflexivity.
Qed.

End Strangers.


Lemma named_differently (name id other : string) :
  id <> other -> name ++ id <> name ++ other.
Proof.
  intros Hne E. apply String.eqb_eq in E. rewrite eqb_app in E.
  apply String.eqb_eq in E. contradiction.
Qed.

(** X10: the stylesheets of two elements do not collide.  For two
    different identifiers made of the characters of a UUID, the rules written
    for one declare nothing for the other element or its [::before] and
    [::after] copies, and define neither of the other's two animations. *)
Theorem stylesheets_of_two_elements_do_not_collide
  (random : nat -> float) (id other : string) (i : nat) :
  forall_chars uuid_char id = true ->
  forall_chars uuid_char other = true ->
  id <> other ->
  exists rs : list rule,
    guarded_rules (fst (styles random id i)) = Some rs
    /\ (forall pseudo property : string,
          declared_value rs (host other ++ pseudo) property = None)
    /\ (forall r : rule,
          In r rs ->
          fst r <> "@keyframes noise-anim-after-" ++ other
          /\ fst r <> "@keyframes noise-anim-before-" ++ other).
Proof.
  intros Hid Hother Hne.
  pose proof (uuid_plain id Hid) as Hplain.
  eexists. split; [apply styles_guarded_rules, plain_no_brace, Hplain |].
  split.
  - intros pseudo property. now apply declared_for_stranger.
  - rewrite (read_media_rules id (plain_no_space id Hplain)).
    intros r [<- | [<- | [<- | [<- | [<- | [<- | []]]]]]]; cbn [fst]; split;
      try (apply String.eqb_neq; unfold host; rewrite ?app_assoc; reflexivity);
      try (now apply named_differently).
Qed.

Lemma stylesheets_of_two_elements_do_not_collide_witness :
  let id := "36b8f84d-df4e-4d49-b662-bcde71a8764f" in
  let other := "0f8fad5b-d9cb-469f-a165-70867728950e" in
  forall_chars uuid_char id = true
  /\ forall_chars uuid_char other = true
  /\ id <> other
  /\ exists rs : list rule,
       guarded_rules (fst (styles (fun _ => 0.5%float) id 0)) = Some rs
       /\ (forall pseudo property : string,
             declared_value rs (host other ++ pseudo) property = None)
       /\ (forall r : rule,
             In r rs ->
             fst r <> "@keyframes noise-anim-after-" ++ other
             /\ fst r <> "@keyframes noise-anim-before-" ++ other).
Proof.
  cbv zeta.
  assert (Hne : "36b8f84d-df4e-4d49-b662-bcde71a8764f"
                <> "0f8fad5b-d9cb-469f-a165-70867728950e") by discriminate.
  split; [reflexivity |]. split; [reflexivity |]. split; [exact Hne |].
  apply (stylesheets_of_two_elements_do_not_collide (fun _ => 0.5%float)
           "36b8f84d-df4e-4d49-b662-bcde71a8764f"
           "0f8fad5b-d9cb-469f-a165-70867728950e" 0);
    first [reflexivity | exact Hne].
Defined.

(** X11: for an identifier made of the characters of a UUID, the rules
    inside the media block are the
    host rule, the rule shared by the two copies, the [::after] rule, the
    [::before] rule and two [@keyframes] rules, in this order; the
    animation name each copy declares is the name of one of the two
    [@keyframes] rules, and both copies run it through the same [animation]
    declaration, which starts with [var(--glitch-anim-name)]. *)
Theorem animation_names_have_keyframes
  (random : nat -> float) (id : string) (i : nat) :
  forall_chars uuid_char id = true ->
  exists (rs : list rule) (after before : string),
    guarded_rules (fst (styles random id i)) = Some rs
    /\ declared_value rs (host id ++ "::after") "--glitch-anim-name" = Some after
    /\ declared_value rs (host id ++ "::before") "--glitch-anim-name" = Some before
    /\ declared_value rs (host id ++ "::after") "animation"
       = declared_value rs (host id ++ "::before") "animation"
    /\ (exists rest,
          declared_value rs (host id ++ "::after") "animation"
          = Some ("var(--glitch-anim-name) " ++ rest))
    /\ map fst rs
       = [host id;
          host id ++ "::after,
        " ++ host id ++ "::before";
          host id ++ "::after";
          host id ++ "::before";
          "@keyframes " ++ after;
          "@keyframes " ++ before].
Proof.
  intros Huuid. pose proof (uuid_plain id Huuid) as Hplain.
  pose proof (plain_no_structure id Hplain) as Hid.
  pose proof (plain_no_space id Hplain) as Hsp.
  exists (map read_back
            (media_rules id
               (fst (generateNoiseAnimation random default_steps default_min default_max i))
               (fst (generateNoiseAnimation random default_steps default_min default_max
                       (i + 2 * (default_steps + 2)))))),
    ("noise-anim-after-" ++ id), ("noise-anim-before-" ++ id).
  split; [apply styles_guarded_rules, plain_no_brace, Hplain |].
  rewrite !(declared_for_after id Hid Hsp), !(declared_for_before id Hid Hsp).
  unfold declared_in.
  rewrite (declarations_after_rule id Hid Hsp), (declarations_before_rule id Hid Hsp).
  split; [reflexivity |]. split; [reflexivity |]. split; [reflexivity |].
  split; [eexists; reflexivity |].
  rewrite (read_media_rules id Hsp). reflexivity.
Qed.

Lemma animation_names_have_keyframes_witness :
  let random := fun _ : nat => 0.5%float in
  let id := "36b8f84d-df4e-4d49-b662-bcde71a8764f" in
  forall_chars uuid_char id = true
  /\ exists (rs : list rule) (after before : string),
       guarded_rules (fst (styles random id 0)) = Some rs
       /\ declared_value rs (host id ++ "::after") "--glitch-anim-name" = Some after
       /\ declared_value rs (host id ++ "::before") "--glitch-anim-name" = Some before
       /\ declared_value rs (host id ++ "::after") "animation"
          = declared_value rs (host id ++ "::before") "animation"
       /\ (exists rest,
             declared_value rs (host id ++ "::after") "animation"
             = Some ("var(--glitch-anim-name) " ++ rest))
       /\ map fst rs
          = [host id;
             host id ++ "::after,
        " ++ host id ++ "::before";
             host id ++ "::after";
             host id ++ "::before";
             "@keyframes " ++ after;
             "@keyframes " ++ before].
Proof.
  cbv zeta. split; [reflexivity |].
  apply (animation_names_have_keyframes (fun _ => 0.5%float) "36b8f84d-df4e-4d49-b662-bcde71a8764f" 0).
  reflexivity.
Defined.

End Cascade.

(** ** The page over time *)

Module Page.

Import StrFacts CSSFacts GeneratorFacts Stylesheet Lifecycle Cascade.

#[local] Open Scope nat_scope.

#[local] Opaque styles generateNoiseAnimation createRandomNumber.

(** Setting the text an element already has and mirrors changes nothing. *)
Lemma set_glitchText_again (value : string) (w : state) :
  dataset_text w = Some value -> priv_glitchText w = value ->
  set_glitchText value w = w.
Proof.
  destruct w as [u g a t s r c]. unfold dataset_text, set_glitchText.
  cbn [attributes priv_glitchText priv_uuid innerText adoptedStyleSheets
       random_calls uuid_calls].
  intros Ha ->. unfold dataset_text. cbn [attributes].
  rewrite Ha, String.eqb_refl. reflexivity.
Qed.

(** X5: after the [glitchText] setter the display text is the value and the
    [data-text] attribute is equal to it; when [data-text] held the value
    before, the attributes are what they were; every other attribute and the
    identifier are what they were in any case; and setting the same value
    twice leaves the same element as setting it once. *)
Theorem set_glitchText_mirrors_the_text (value : string) (w : state) :
  glitchText (set_glitchText value w) = value
  /\ dataset_text (set_glitchText value w) = Some value
  /\ (dataset_text w = Some value -> attributes (set_glitchText value w) = attributes w)
  /\ (forall name : string,
        name <> "data-text" ->
        attributes (set_glitchText value w) !! name = attributes w !! name)
  /\ uuid (set_glitchText value w) = uuid w
  /\ set_glitchText value (set_glitchText value w) = set_glitchText value w.
Proof.
  split; [apply set_glitchText_field |].
  split; [apply set_glitchText_mirror |].
  split; [| split; [| split]].
  - intros H. unfold set_glitchText. cbn [attributes]. unfold dataset_text in *.
    cbn [attributes]. rewrite H, String.eqb_refl. reflexivity.
  - intros name Hname. unfold set_glitchText, dataset_text. cbn [attributes].
    destruct (attributes w !! "data-text") as [t|]; [destruct (String.eqb t value) |];
      cbn [attributes with_attribute]; try reflexivity;
      now rewrite lookup_insert_ne.
  - now destruct (set_glitchText_rest value w) as (H & _).
  - apply set_glitchText_again;
      [apply set_glitchText_mirror | apply set_glitchText_field].
Qed.



Section Operations.

Variable env : platform.

Lemma same_element_mirrored w w' : same_element w w' -> mirrored w -> mirrored w'.
Proof.
  intros (Hu & Hg & Ha & _) [H1 H2]. unfold mirrored, uuid, glitchText, dataset_text in *.
  rewrite Hu, Hg, Ha. now split.
Qed.

(** Every operation completes; an attachment sets up both mirrors and no
    operation breaks them. *)
Lemma perform_mirrored op w :
  exists w',
    perform env op w = Normal w' /\ (op = Attach \/ mirrored w -> mirrored w').
Proof.
  destruct op as [| v | v | | | steps min max | min max]; cbn [perform].
  - destruct (connectedCallback_result env w) as (w' & Hw & Hg & Hd & Hu & Ha & _).
    exists w'. split; [exact Hw |]. intros _. split; assumption.
  - eexists. split; [reflexivity |]. intros [H | [H1 H2]]; [discriminate |]. split.
    + unfold set_uuid, with_attribute, uuid. cbn [attributes priv_uuid].
      apply lookup_insert_eq.
    + rewrite dataset_text_set_uuid. exact H2.
  - eexists. split; [reflexivity |]. intros [H | [H1 H2]]; [discriminate |]. split.
    + rewrite set_glitchText_uuid_attribute.
      destruct (set_glitchText_rest v w) as (Hu & _). unfold uuid. now rewrite Hu.
    + unfold glitchText. rewrite set_glitchText_field. apply set_glitchText_mirror.
  - eexists. split; [reflexivity |]. intros [H | H]; [discriminate |].
    exact (same_element_mirrored _ _ (get_styles_same env w) H).
  - destruct (adoptStyles_same env w) as (w' & Hw & Hs).
    exists w'. split; [exact Hw |]. intros [H | H]; [discriminate |].
    exact (same_element_mirrored _ _ Hs H).
  - eexists. split; [reflexivity |]. intros [H | H]; [discriminate |].
    exact (same_element_mirrored _ _ (run_random_same _ w) H).
  - eexists. split; [reflexivity |]. intros [H | H]; [discriminate |].
    exact (same_element_mirrored _ _ (run_random_same _ w) H).
Qed.

Lemma perform_all_mirrored ops :
  forall w, mirrored w ->
  exists w', perform_all env ops w = Normal w' /\ mirrored w'.
Proof.
  induction ops as [|op ops IH]; intros w Hw; cbn [perform_all].
  - now exists w.
  - destruct (perform_mirrored op w) as (w1 & H1 & Hm). rewrite H1.
    apply IH, Hm. now right.
Qed.

Lemma run_random_adopted {A : Type} (m : Rand A) w :
  adoptedStyleSheets (snd (run_random m w)) = adoptedStyleSheets w
  /\ priv_uuid (snd (run_random m w)) = priv_uuid w.
Proof. unfold run_random. now destruct (m (random_calls w)). Qed.

Lemma set_glitchText_state v w :
  adoptedStyleSheets (set_glitchText v w) = adoptedStyleSheets w
  /\ random_calls (set_glitchText v w) = random_calls w
  /\ priv_uuid (set_glitchText v w) = priv_uuid w.
Proof. destruct (set_glitchText_rest v w) as (H1 & _ & H3 & H4 & _). auto. Qed.

(** What [adoptStyles] adds to the adopted stylesheets. *)
Lemma adoptStyles_adds w :
  exists w',
    adoptStyles env w = Normal w'
    /\ adoptedStyleSheets w'
       = (adoptedStyleSheets w
          ++ (if replaceSync_in_prototype env
              then [{| cssText :=
                         fst (styles (Math_random_stream env) (uuid w) (random_calls w)) |}]
              else []))%list
    /\ same_element w w'.
Proof.
  destruct (replaceSync_in_prototype env) eqn:E.
  - rewrite (adoptStyles_supported env w E). eexists. split; [reflexivity |].
    split.
    + unfold adoptedStyleSheets_push. cbn [adoptedStyleSheets].
      unfold get_styles.
      destruct (run_random_adopted (styles (Math_random_stream env) (uuid w)) w) as [-> _].
      unfold run_random.
      now destruct (styles (Math_random_stream env) (uuid w) (random_calls w)).
    + destruct (get_styles_same env w) as (H1 & H2 & H3 & H4 & H5).
      repeat split; assumption.
  - rewrite (adoptStyles_unsupported env w E). exists w.
    split; [reflexivity |]. split; [now rewrite List.app_nil_r | apply same_element_refl].
Qed.

(** What an attachment adds: the stylesheet of the identifier it assigns. *)
Lemma connectedCallback_adds w :
  exists w',
    connectedCallback env w = Normal w'
    /\ adoptedStyleSheets w'
       = (adoptedStyleSheets w
          ++ (if replaceSync_in_prototype env
              then [{| cssText :=
                         fst (styles (Math_random_stream env)
                                (randomUUID_stream env (uuid_calls w)) (random_calls w)) |}]
              else []))%list.
Proof.
  unfold connectedCallback, crypto_randomUUID.
  set (id := randomUUID_stream env (uuid_calls w)).
  set (w1 := Build_state _ _ _ _ _ _ (S (uuid_calls w))).
  set (v := or_else (dataset_text (set_uuid id w1)) (trim (innerText (set_uuid id w1)))).
  destruct (adoptStyles_adds (set_glitchText v (set_uuid id w1))) as (w' & Hw & Ha & _).
  exists w'. split; [exact Hw |]. rewrite Ha.
  destruct (set_glitchText_state v (set_uuid id w1)) as (-> & -> & Hu).
  unfold uuid. rewrite Hu. reflexivity.
Qed.

(** Every operation completes and only ever appends to the adopted
    stylesheets: one stylesheet when it publishes and the platform can, none
    otherwise. *)
Lemma perform_appends op w :
  exists w' added,
    perform env op w = Normal w'
    /\ adoptedStyleSheets w' = (adoptedStyleSheets w ++ added)%list
    /\ length added = if replaceSync_in_prototype env && publishes op then 1 else 0.
Proof.
  destruct op as [| v | v | | | steps min max | min max]; cbn [perform publishes];
    rewrite ?andb_true_r, ?andb_false_r.
  - destruct (connectedCallback_adds w) as (w' & Hw & Ha).
    eexists w', _. split; [exact Hw |]. split; [exact Ha |].
    now destruct (replaceSync_in_prototype env).
  - exists (set_uuid v w), []. split; [reflexivity |]. now rewrite List.app_nil_r.
  - exists (set_glitchText v w), []. split; [reflexivity |]. rewrite List.app_nil_r.
    now destruct (set_glitchText_state v w) as (-> & _).
  - eexists _, []. split; [reflexivity |]. rewrite List.app_nil_r.
    unfold get_styles. now destruct (run_random_adopted (styles (Math_random_stream env) (uuid w)) w) as [-> _].
  - destruct (adoptStyles_adds w) as (w' & Hw & Ha & _).
    eexists w', _. split; [exact Hw |]. split; [exact Ha |].
    now destruct (replaceSync_in_prototype env).
  - eexists _, []. split; [reflexivity |]. rewrite List.app_nil_r.
    now destruct (run_random_adopted (generateNoiseAnimation (Math_random_stream env) steps min max) w) as [-> _].
  - eexists _, []. split; [reflexivity |]. rewrite List.app_nil_r.
    now destruct (run_random_adopted (createRandomNumber (Math_random_stream env) min max) w) as [-> _].
Qed.

End Operations.

(** X7: whatever is done with an element after it was attached
    (attachments, both setters, the [styles] getter, [adoptStyles], the two
    generators), every operation completes without throwing and, at the end,
    the [uuid] attribute holds the identifier and the [data-text] attribute
    the display text. *)
Theorem mirrors_hold_from_the_first_attachment
  (env : platform) (ops : list operation) (w : state) :
  exists w',
    perform_all env (Attach :: ops) w = Normal w'
    /\ attributes w' !! "uuid" = Some (uuid w')
    /\ dataset_text w' = Some (glitchText w').
Proof.
  cbn [perform_all].
  destruct (perform_mirrored env Attach w) as (w1 & H1 & Hm). rewrite H1.
  destruct (perform_all_mirrored env ops w1 (Hm (or_introl eq_refl))) as (w' & Hw & H).
  exists w'. split; [exact Hw | exact H].
Qed.


(** X8: the adopted stylesheets only grow.  Any sequence of operations
    completes and leaves the stylesheets that were adopted before in place
    and in order, followed by one new stylesheet for each attachment and each
    [adoptStyles] call when the platform has [replaceSync], and by none when it
    has not: nothing is ever removed or replaced. *)
Theorem adopted_stylesheets_only_grow
  (env : platform) (ops : list operation) (w : state) :
  exists w' added,
    perform_all env ops w = Normal w'
    /\ adoptedStyleSheets w' = (adoptedStyleSheets w ++ added)%list
    /\ length added
       = if replaceSync_in_prototype env then length (List.filter publishes ops) else 0.
Proof.
  revert w. induction ops as [|op ops IH]; intros w; cbn [perform_all List.filter].
  - exists w, []. split; [reflexivity |]. split; [now rewrite List.app_nil_r |].
    now destruct (replaceSync_in_prototype env).
  - destruct (perform_appends env op w) as (w1 & added1 & H1 & Ha1 & Hl1).
    destruct (IH w1) as (w' & added & Hw & Ha & Hl).
    exists w', (added1 ++ added)%list. rewrite H1.
    split; [exact Hw |]. split; [now rewrite Ha, Ha1, List.app_assoc |].
    rewrite length_app, Hl1, Hl.
    destruct (replaceSync_in_prototype env), (publishes op);
      cbv beta iota; cbn [andb length]; lia.
Qed.


(** An attachment on a platform that can publish: the state it leaves and
    the one stylesheet it adds. *)
Lemma connectedCallback_publishes (env : platform) (w : state) :
  replaceSync_in_prototype env = true ->
  exists w',
    connectedCallback env w = Normal w'
    /\ adoptedStyleSheets w'
       = (adoptedStyleSheets w
          ++ [{| cssText :=
                   fst (styles (Math_random_stream env) (uuid w') (random_calls w)) |}])%list
    /\ uuid w' = randomUUID_stream env (uuid_calls w)
    /\ mirrored w'.
Proof.
  intros Hs.
  destruct (connectedCallback_adds env w) as (w' & Hw & Ha).
  destruct (connectedCallback_result env w) as (w2 & Hw2 & Hg & Hd & Hu & Hau & _).
  rewrite Hw in Hw2. injection Hw2 as <-.
  exists w'. split; [exact Hw |]. rewrite Hs in Ha.
  split; [now rewrite Hu |]. split; [exact Hu |]. split; assumption.
Qed.

(** X9: on a platform with [replaceSync] whose UUIDs are made of
    hexadecimal digits and hyphens, an attachment adopts exactly one
    stylesheet: the [styles] text of the identifier it has just assigned,
    which is the value of the element's [uuid] attribute, and that text is
    guarded by the reduced-motion media condition. *)
Theorem attachment_publishes_a_guarded_stylesheet (env : platform) (w : state) :
  replaceSync_in_prototype env = true ->
  (forall k : nat, forall_chars uuid_char (randomUUID_stream env k) = true) ->
  exists (w' : state) (sheet : CSSStyleSheet),
    connectedCallback env w = Normal w'
    /\ adoptedStyleSheets w' = (adoptedStyleSheets w ++ [sheet])%list
    /\ cssText sheet = fst (styles (Math_random_stream env) (uuid w') (random_calls w))
    /\ attributes w' !! "uuid" = Some (uuid w')
    /\ guarded_by_media (cssText sheet) = true.
Proof.
  intros Hs Hk.
  destruct (connectedCallback_publishes env w Hs) as (w' & Hw & Ha & Hu & Hm & _).
  eexists w', _. split; [exact Hw |]. split; [exact Ha |].
  cbn [cssText]. split; [reflexivity |]. split; [exact Hm |].
  apply styles_one_block, plain_no_brace, uuid_plain.
  rewrite Hu. apply Hk.
Qed.

Lemma attachment_publishes_a_guarded_stylesheet_witness :
  let env := example_platform true in
  let w := fresh_element (<["data-text" := "Hello"]> ∅) "Hello" in
  replaceSync_in_prototype env = true
  /\ exists (w' : state) (sheet : CSSStyleSheet),
       connectedCallback env w = Normal w'
       /\ adoptedStyleSheets w' = (adoptedStyleSheets w ++ [sheet])%list
       /\ cssText sheet = fst (styles (Math_random_stream env) (uuid w') (random_calls w))
       /\ attributes w' !! "uuid" = Some (uuid w')
       /\ guarded_by_media (cssText sheet) = true.
Proof.
  cbv zeta. split; [reflexivity |].
  apply (attachment_publishes_a_guarded_stylesheet (example_platform true)
           (fresh_element (<["data-text" := "Hello"]> ∅) "Hello")).
  - reflexivity.
  - intros [|k]; reflexivity.
Defined.

(** X12: on a platform with [replaceSync] whose UUIDs are made of
    hexadecimal digits and hyphens, the stylesheet an attachment adopts makes
    both copies of the element show [attr(data-text)], and the attachment
    leaves in [data-text] the display text it resolved: the text attribute
    when it is not empty, the trimmed rendered text otherwise. *)
Theorem copies_display_the_resolved_text (env : platform) (w : state) :
  replaceSync_in_prototype env = true ->
  (forall k : nat, forall_chars uuid_char (randomUUID_stream env k) = true) ->
  exists (w' : state) (sheet : CSSStyleSheet) (rs : list rule),
    connectedCallback env w = Normal w'
    /\ adoptedStyleSheets w' = (adoptedStyleSheets w ++ [sheet])%list
    /\ guarded_rules (cssText sheet) = Some rs
    /\ declared_value rs (host (uuid w') ++ "::after") "content" = Some "attr(data-text)"
    /\ declared_value rs (host (uuid w') ++ "::before") "content" = Some "attr(data-text)"
    /\ attributes w' !! "data-text" = Some (glitchText w')
    /\ glitchText w' = or_else (dataset_text w) (trim (innerText w)).
Proof.
  intros Hs Hk.
  destruct (connectedCallback_publishes env w Hs) as (w' & Hw & Ha & Hu & _ & Hm).
  destruct (connectedCallback_result env w) as (w2 & Hw2 & Hg & _).
  rewrite Hw in Hw2. injection Hw2 as <-.
  assert (Hplain : plain (uuid w') = true) by (rewrite Hu; apply uuid_plain, Hk).
  pose proof (plain_no_structure _ Hplain) as Hid.
  pose proof (plain_no_space _ Hplain) as Hsp.
  eexists w', _, _. split; [exact Hw |]. split; [exact Ha |].
  cbn [cssText].
  split; [apply styles_guarded_rules, plain_no_brace, Hplain |].
  rewrite (declared_for_after _ Hid Hsp), (declared_for_before _ Hid Hsp).
  unfold declared_in.
  rewrite (declarations_after_rule _ Hid Hsp), (declarations_before_rule _ Hid Hsp).
  split; [reflexivity |]. split; [reflexivity |]. split; [exact Hm | exact Hg].
Qed.

Lemma copies_display_the_resolved_text_witness :
  let env := example_platform true in
  let w := fresh_element ∅ " World " in
  replaceSync_in_prototype env = true
  /\ exists (w' : state) (sheet : CSSStyleSheet) (rs : list rule),
       connectedCallback env w = Normal w'
       /\ adoptedStyleSheets w' = (adoptedStyleSheets w ++ [sheet])%list
       /\ guarded_rules (cssText sheet) = Some rs
       /\ declared_value rs (host (uuid w') ++ "::after") "content"
          = Some "attr(data-text)"
       /\ declared_value rs (host (uuid w') ++ "::before") "content"
          = Some "attr(data-text)"
       /\ attributes w' !! "data-text" = Some (glitchText w')
       /\ glitchText w' = or_else (dataset_text w) (trim (innerText w)).
Proof.
  cbv zeta. split; [reflexivity |].
  apply (copies_display_the_resolved_text (example_platform true)
           (fresh_element ∅ " World ")).
  - reflexivity.
  - intros [|k]; reflexivity.
Defined.

End Page.

(** ** Calls of the platform *)

Module Calls.

Import StrFacts CSSFacts GeneratorFacts Stylesheet Lifecycle Generation.

#[local] Open Scope nat_scope.

Section Operations.

Variable env : platform.

Lemma run_random_calls {A : Type} (m : Rand A) w :
  random_calls (snd (run_random m w)) = snd (m (random_calls w))
  /\ uuid_calls (snd (run_random m w)) = uuid_calls w.
Proof. unfold run_random. now destruct (m (random_calls w)). Qed.

Lemma get_styles_calls w :
  random_calls (snd (get_styles env w)) = random_calls w + 88
  /\ uuid_calls (snd (get_styles env w)) = uuid_calls w.
Proof.
  unfold get_styles.
  destruct (run_random_calls (styles (Math_random_stream env) (uuid w)) w) as [-> ->].
  now rewrite styles_calls.
Qed.

#[local] Opaque styles generateNoiseAnimation.

Lemma adoptStyles_calls w :
  exists w',
    adoptStyles env w = Normal w'
    /\ random_calls w'
       = random_calls w + (if replaceSync_in_prototype env then 88 else 0)
    /\ uuid_calls w' = uuid_calls w.
Proof.
  destruct (replaceSync_in_prototype env) eqn:E.
  - rewrite (adoptStyles_supported env w E). eexists. split; [reflexivity |].
    unfold adoptedStyleSheets_push. cbn [random_calls uuid_calls].
    apply get_styles_calls.
  - rewrite (adoptStyles_unsupported env w E). exists w. split; [reflexivity |]. lia.
Qed.

Lemma connectedCallback_calls w :
  exists w',
    connectedCallback env w = Normal w'
    /\ random_calls w'
       = random_calls w + (if replaceSync_in_prototype env then 88 else 0)
    /\ uuid_calls w' = uuid_calls w + 1.
Proof.
  unfold connectedCallback, crypto_randomUUID.
  set (id := randomUUID_stream env (uuid_calls w)).
  set (w1 := Build_state _ _ _ _ _ _ (S (uuid_calls w))).
  set (v := or_else (dataset_text (set_uuid id w1)) (trim (innerText (set_uuid id w1)))).
  destruct (adoptStyles_calls (set_glitchText v (set_uuid id w1))) as (w' & Hw & Hr & Hu).
  exists w'. split; [exact Hw |]. rewrite Hr, Hu.
  destruct (set_glitchText_rest v (set_uuid id w1)) as (_ & _ & _ & -> & ->).
  cbn [set_uuid with_attribute random_calls uuid_calls]. unfold w1.
  cbn [random_calls uuid_calls]. lia.
Qed.

Lemma perform_calls op w :
  exists w',
    perform env op w = Normal w'
    /\ random_calls w' = random_calls w + random_cost (replaceSync_in_prototype env) op
    /\ uuid_calls w' = uuid_calls w + uuid_cost op.
Proof.
  destruct op as [| v | v | | | steps min max | min max];
    cbn [perform random_cost uuid_cost].
  - apply connectedCallback_calls.
  - eexists. split; [reflexivity |]. cbn [set_uuid with_attribute random_calls uuid_calls]. lia.
  - eexists. split; [reflexivity |].
    destruct (set_glitchText_rest v w) as (_ & _ & _ & -> & ->). lia.
  - eexists. split; [reflexivity |].
    destruct (get_styles_calls w) as [-> ->]. lia.
  - destruct (adoptStyles_calls w) as (w' & Hw & Hr & Hu).
    exists w'. split; [exact Hw |]. rewrite Hr, Hu. lia.
  - eexists. split; [reflexivity |].
    destruct (run_random_calls
                (generateNoiseAnimation (Math_random_stream env) steps min max) w)
      as [-> ->].
    rewrite generateNoiseAnimation_text. cbn [snd]. lia.
  - eexists. split; [reflexivity |].
    destruct (run_random_calls (createRandomNumber (Math_random_stream env) min max) w)
      as [-> ->].
    rewrite createRandomNumber_calls. lia.
Qed.

End Operations.

(** X13: any sequence of operations completes, and the calls of the
    platform add up: [crypto.randomUUID] is called once per attachment and by
    nothing else; [Math.random] is called 88 times by the [styles] getter,
    88 times by an attachment or [adoptStyles] when the platform has
    [replaceSync] and not at all when it has not, [2 * (steps + 2)] times by
    [generateNoiseAnimation] and once by [createRandomNumber]. *)
Theorem calls_of_the_platform_add_up
  (env : platform) (ops : list operation) (w : state) :
  exists w',
    perform_all env ops w = Normal w'
    /\ random_calls w'
       = random_calls w
         + list_sum (map (random_cost (replaceSync_in_prototype env)) ops)
    /\ uuid_calls w' = uuid_calls w + list_sum (map uuid_cost ops).
Proof.
  revert w. induction ops as [|op ops IH]; intros w; cbn [perform_all map list_sum fold_right].
  - exists w. split; [reflexivity |]. lia.
  - destruct (perform_calls env op w) as (w1 & H1 & Hr1 & Hu1). rewrite H1.
    destruct (IH w1) as (w' & Hw & Hr & Hu).
    exists w'. split; [exact Hw |]. rewrite Hr, Hu, Hr1, Hu1.
    unfold list_sum. lia.
Qed.

End Calls.
